(** * covered: is every file of one directory tree present in another?

    A shallow embedding of [covered.py].  The program walks two directory
    trees, hashes every file it finds and reports the files of the first
    tree whose hash does not occur among the hashes of the second.

    The file is organised as follows.
    - [Pathlib]: the fragment of [pathlib.Path] the program uses.
    - [FS]: the operating-system calls the program makes, as an interface.
    - the program itself: [_all_files_in_dir], [dir_contents], [covered],
      [sha1_file_hash], [main].
    - [Hashlib]: SHA-1 (FIPS 180-4), the digest behind [hashlib.sha1].
    - [Disk]: a finite file system with symbolic links that implements
      [FS]; it is the model in which directory cycles are studied.
    - the theorems. *)

From Stdlib Require Import ZArith Lia Ascii String.
From Stdlib.Strings Require Import Byte.
From stdpp Require Import gmap strings list.
From Equations Require Import Equations.

Set Warnings "-clear-no-such-hyp".

Open Scope string_scope.
Open Scope list_scope.
Open Scope nat_scope.

(** ** Exceptions and results *)

(** The exceptions that reach the program from the operating system. *)
Inductive exn : Type :=
| FileNotFoundError (filename : string)
| NotADirectoryError (filename : string)
| IsADirectoryError (filename : string)
| PermissionError (filename : string).

(** A call that either returns or raises. *)
Inductive result (A : Type) : Type :=
| Ok (a : A)
| Err (e : exn).
Arguments Ok {A} a.
Arguments Err {A} e.

Definition rbind {A B} (r : result A) (k : A → result B) : result B :=
  match r with
  | Ok a => k a
  | Err e => Err e
  end.

(** Loops that the source writes as [while] are run with a step budget:
    [None] means the budget ran out, [Some r] that the loop finished with
    [r]. *)
Definition run (A : Type) : Type := option (result A).

#[export] Instance run_ret : MRet run := λ A a, Some (Ok a).

#[export] Instance run_bind : MBind run := λ A B k m,
  match m with
  | Some (Ok a) => k a
  | Some (Err e) => Some (Err e)
  | None => None
  end.

(** ** pathlib *)

Module Pathlib.

(** A pure POSIX path: whether it starts at the root, and its
    components. *)
Record Path : Type := mkPath { root : bool; parts : list string }.

#[export] Instance Path_eq_dec : EqDecision Path.
Proof. solve_decision. Defined.

(** [d / name] for a single component [name], as [iterdir] builds it. *)
Definition joinpath (d : Path) (name : string) : Path :=
  {| root := root d; parts := parts d ++ [name] |}.

Definition is_absolute (p : Path) : bool := root p.

(** [p.name]: the last component. *)
Definition name (p : Path) : string := default "" (last (parts p)).

Fixpoint join (sep : string) (l : list string) : string :=
  match l with
  | [] => ""
  | [x] => x
  | x :: l' => x +:+ sep +:+ join sep l'
  end.

(** [str(p)] *)
Definition str (p : Path) : string :=
  match root p, parts p with
  | false, [] => "."
  | false, l => join "/" l
  | true, l => "/" +:+ join "/" l
  end.

(** [s.split("/")] *)
Fixpoint split_slash (cur : string) (s : string) : list string :=
  match s with
  | EmptyString => [cur]
  | String c s' =>
      if Ascii.eqb c "/"%char then cur :: split_slash "" s'
      else split_slash (cur +:+ String c "") s'
  end.

(** [Path(s)]: empty components and [.] components are dropped. (A path
    that starts with exactly two slashes keeps them in pathlib; that
    corner is not modelled.) *)
Definition of_string (s : string) : Path :=
  {| root := match s with String "/"%char _ => true | _ => false end;
     parts := filter (λ c, c ≠ "" ∧ c ≠ ".") (split_slash "" s) |}.

End Pathlib.
Export Pathlib.

Notation "d // name" := (joinpath d name) (at level 40, left associativity).

(** ** The operating system, as seen by the program *)

(** The program reads the file system through four calls.  [listdir] is
    the directory listing behind [Path.iterdir], in the order the system
    returns it; [resolve] is [Path.resolve()], which follows symbolic
    links and, not being strict, returns a path also for what does not
    exist; [is_dir] is [Path.is_dir()], which follows symbolic links and
    answers [False] for what does not exist; [open_rb] is the content a
    file opened with [open(fle, 'rb')] will deliver.  A symbolic link
    that points to itself, on which older versions of [resolve] raise,
    is outside the model. *)
Record FS : Type := mkFS {
  listdir : Path → result (list string);
  resolve : Path → Path;
  is_dir : Path → bool;
  open_rb : Path → result (list byte);
}.

(** [list(d.iterdir())] *)
Definition iterdir (fs : FS) (d : Path) : result (list Path) :=
  rbind (listdir fs d) (λ names, Ok (joinpath d <$> names)).

(** ** The tree enumerator *)

(** [l.pop()] on a non-empty list: the last element, and the list
    without it. *)
Fixpoint list_pop {A} (l : list A) : option (list A * A) :=
  match l with
  | [] => None
  | x :: l' =>
      match list_pop l' with
      | None => Some ([], x)
      | Some (r, y) => Some (x :: r, y)
      end
  end.

(** The local variables of the generator [_all_files_in_dir]. *)
Record gen_state : Type := mkGen { visited : gset string; left : list Path }.

(** What one turn of [while left:] does. *)
Inductive step : Type :=
| Stop                                  (* [left] is empty: the loop ends *)
| Revisit (st : gen_state)              (* [continue]: already visited *)
| Descend (st : gen_state)              (* a directory: children pushed *)
| Yield (fle : Path) (st : gen_state)   (* [yield fle] *)
| Fail (e : exn).                       (* [fle.iterdir()] raised *)

Definition loop_body (fs : FS) (st : gen_state) : step :=
  match list_pop (left st) with
  | None => Stop
  | Some (left', fle) =>
      let sfle := str (resolve fs fle) in
      if decide (sfle ∈ visited st) then
        Revisit {| visited := visited st; left := left' |}
      else
        let visited' := visited st ∪ {[ sfle ]} in
        if is_dir fs fle then
          match iterdir fs fle with
          | Ok children =>
              Descend {| visited := visited'; left := left' ++ children |}
          | Err e => Fail e
          end
        else Yield fle {| visited := visited'; left := left' |}
  end.

(** The statements before the loop: [visited = set()] and
    [left = list(d.iterdir())]. *)
Definition gen_start (fs : FS) (d : Path) : result gen_state :=
  rbind (iterdir fs d) (λ children, Ok {| visited := ∅; left := children |}).

(** A consumer drives the generator: [body] is what the consumer does
    with each yielded file before it asks for the next one; an exception
    in the generator or in the consumer ends the run. *)
Fixpoint gen_run {A} (fs : FS) (body : A → Path → result A)
    (fuel : nat) (st : gen_state) (acc : A) : run A :=
  match fuel with
  | O => None
  | S fuel' =>
      match loop_body fs st with
      | Stop => Some (Ok acc)
      | Revisit st' | Descend st' => gen_run fs body fuel' st' acc
      | Yield fle st' =>
          match body acc fle with
          | Ok acc' => gen_run fs body fuel' st' acc'
          | Err e => Some (Err e)
          end
      | Fail e => Some (Err e)
      end
  end.

Definition gen_consume {A} (fs : FS) (body : A → Path → result A)
    (fuel : nat) (d : Path) (acc : A) : run A :=
  match gen_start fs d with
  | Ok st => gen_run fs body fuel st acc
  | Err e => Some (Err e)
  end.

(** [list(_all_files_in_dir(d))]: the files in the order they are
    yielded. *)
Definition _all_files_in_dir (fs : FS) (fuel : nat) (d : Path) : run (list Path) :=
  gen_consume fs (λ fles fle, Ok (fles ++ [fle])) fuel d [].

(** ** The comparator *)

Section Comparator.
Context (fs : FS).

(** [tups = [(fle, hash_fun(fle)) for fle in fles]]: the hash of a file
    is computed as soon as the file is yielded. *)
Definition dir_contents (fuel : nat) (d : Path) (hash_fun : Path → result string)
    : run (list (Path * string)) :=
  gen_consume fs
    (λ tups fle, rbind (hash_fun fle) (λ hsh, Ok (tups ++ [(fle, hsh)])))
    fuel d [].

(** The loop over [contents_src] with its accumulator [missings]. *)
Definition missing_loop (hashes_cov : gset string)
    (contents_src : list (Path * string)) : list (Path * string) :=
  foldl (λ missings '(fle_src, hash_src),
           if decide (hash_src ∉ hashes_cov)
           then missings ++ [(fle_src, hash_src)]
           else missings)
        [] contents_src.

Definition covered (fuel : nat) (src covered_by : Path)
    (hash_fun : Path → result string) : run (list (Path * string)) :=
  contents_src ← dir_contents fuel src hash_fun;
  contents_cov ← dir_contents fuel covered_by hash_fun;
  let hashes_cov : gset string := list_to_set (contents_cov.*2) in
  mret (missing_loop hashes_cov contents_src).

End Comparator.

(** ** hashlib *)

Module Hashlib.

Local Open Scope Z_scope.

(** 32-bit words are integers in [[0, 2^32)]. *)
Definition w32 (x : Z) : Z := x mod 2 ^ 32.

Definition rotl (n : Z) (x : Z) : Z :=
  w32 (Z.lor (Z.shiftl x n) (Z.shiftr x (32 - n))).

Definition byte_val (b : byte) : Z := Z.of_N (Byte.to_N b).

Definition byte_of_Z (z : Z) : byte :=
  match Byte.of_N (Z.to_N (z mod 256)) with
  | Some b => b
  | None => x00
  end.

(** The eight bytes of [n], most significant first. *)
Definition be64 (n : Z) : list byte :=
  map (λ i, byte_of_Z (Z.shiftr n (8 * i))) [7; 6; 5; 4; 3; 2; 1; 0].

(** Message padding: a one bit, zeros up to 56 modulo 64, and the length
    of the message in bits. *)
Definition pad (msg : list byte) : list byte :=
  let len := Z.of_nat (length msg) in
  let zeros := Z.to_nat ((55 - len) mod 64) in
  msg ++ [x80] ++ replicate zeros x00 ++ be64 ((8 * len) mod 2 ^ 64).

(** Big-endian words of a block. *)
Fixpoint words (bs : list byte) : list Z :=
  match bs with
  | b0 :: b1 :: b2 :: b3 :: bs' =>
      (byte_val b0 * 2 ^ 24 + byte_val b1 * 2 ^ 16 + byte_val b2 * 2 ^ 8 + byte_val b3)
      :: words bs'
  | _ => []
  end.

(** The message schedule, newest word first: [extend k w] adds [k]
    words to [w]. *)
Fixpoint extend (k : nat) (w : list Z) : list Z :=
  match k with
  | O => w
  | S k' =>
      let x := Z.lxor (Z.lxor (Z.lxor (nth 2 w 0) (nth 7 w 0)) (nth 13 w 0)) (nth 15 w 0) in
      extend k' (rotl 1 x :: w)
  end.

Definition schedule (block : list byte) : list Z :=
  rev (extend 64 (rev (words block))).

Record state : Type := mkState { h0 : Z; h1 : Z; h2 : Z; h3 : Z; h4 : Z }.

Definition init : state :=
  {| h0 := 0x67452301; h1 := 0xEFCDAB89; h2 := 0x98BADCFE;
     h3 := 0x10325476; h4 := 0xC3D2E1F0 |}.

Definition round_f (t : nat) (b c d : Z) : Z :=
  if (t <? 20)%nat then Z.lor (Z.land b c) (Z.land (Z.lxor b 0xFFFFFFFF) d)
  else if (t <? 40)%nat then Z.lxor (Z.lxor b c) d
  else if (t <? 60)%nat then Z.lor (Z.lor (Z.land b c) (Z.land b d)) (Z.land c d)
  else Z.lxor (Z.lxor b c) d.

Definition round_k (t : nat) : Z :=
  if (t <? 20)%nat then 0x5A827999
  else if (t <? 40)%nat then 0x6ED9EBA1
  else if (t <? 60)%nat then 0x8F1BBCDC
  else 0xCA62C1D6.

Fixpoint rounds (t : nat) (w : list Z) (s : state) : state :=
  match w with
  | [] => s
  | wt :: w' =>
      let 'mkState a b c d e := s in
      let temp := w32 (rotl 5 a + round_f t b c d + e + round_k t + wt) in
      rounds (S t) w' (mkState temp a (rotl 30 b) c d)
  end.

Definition compress (s : state) (block : list byte) : state :=
  let 'mkState a b c d e := rounds 0 (schedule block) s in
  mkState (w32 (h0 s + a)) (w32 (h1 s + b)) (w32 (h2 s + c))
          (w32 (h3 s + d)) (w32 (h4 s + e)).

Fixpoint blocks (n : nat) (bs : list byte) (s : state) : state :=
  match n with
  | O => s
  | S n' => blocks n' (drop 64 bs) (compress s (take 64 bs))
  end.

(** The digest of a message, as five 32-bit words. *)
Definition sha1_words (msg : list byte) : list Z :=
  let p := pad msg in
  let 'mkState a b c d e := blocks (length p / 64) p init in
  [a; b; c; d; e].

Definition hex_digit (z : Z) : ascii :=
  match z mod 16 with
  | 0 => "0" | 1 => "1" | 2 => "2" | 3 => "3" | 4 => "4" | 5 => "5"
  | 6 => "6" | 7 => "7" | 8 => "8" | 9 => "9" | 10 => "a" | 11 => "b"
  | 12 => "c" | 13 => "d" | 14 => "e" | _ => "f"
  end%char.

Definition hex_word (w : Z) : string :=
  string_of_list_ascii
    (map (λ i, hex_digit (Z.shiftr w (4 * i))) [7; 6; 5; 4; 3; 2; 1; 0]).

Definition hex (ws : list Z) : string :=
  foldr (λ w s, hex_word w +:+ s) "" ws.

(** A [hashlib.sha1()] object: the bytes fed to it so far.  Repeated
    calls of [update] are equivalent to one call with the concatenation
    of the arguments. *)
Definition sha1 : Type := list byte.
Definition sha1_new : sha1 := [].
Definition update (h : sha1) (data : list byte) : sha1 := h ++ data.
Definition hexdigest (h : sha1) : string := hex (sha1_words h).

End Hashlib.

(** ** The content hasher *)

(** An open binary file is the part of its content that has not been read
    yet; [f.read(n)] returns at most [n] bytes and advances. *)
Definition read (n : N) (f : list byte) : list byte * list byte :=
  (take (N.to_nat n) f, drop (N.to_nat n) f).

Definition inspect {A} (a : A) : {b : A | a = b} := exist _ a eq_refl.

(** The loop of [sha1_file_hash]:
    [while True: data = f.read(BUF_SIZE); if not data: break; sha1.update(data)]. *)
Equations? read_loop (buf_size : N) (f : list byte) (sha1 : Hashlib.sha1)
    : Hashlib.sha1 by wf (length f) lt :=
  read_loop buf_size f sha1 with inspect (read buf_size f) := {
    | exist _ ([], _) _ => sha1
    | exist _ (data, f') _ => read_loop buf_size f' (Hashlib.update sha1 data) }.
Proof.
  match goal with H : take _ _ = _ :: _ |- _ =>
    apply (f_equal length) in H; rewrite length_take in H; simpl in H
  end.
  rewrite length_drop. lia.
Qed.

Definition BUF_SIZE : N := 65536.

(** The file is opened, read to its end and closed; the result is
    ["{}".format(sha1.hexdigest())], the digest as it is. *)
Definition sha1_file_hash (fs : FS) (fle : Path) : result string :=
  rbind (open_rb fs fle) (λ f,
    Ok (Hashlib.hexdigest (read_loop BUF_SIZE f Hashlib.sha1_new))).

(** ** The command line *)

Definition TAB : string := String "009"%char "".
Definition LF : string := String "010"%char "".

(** [print(line)] on a standard output that holds [stdout] so far. *)
Definition print (stdout : string) (line : string) : string :=
  stdout +:+ line +:+ LF.

(** [main], for the arguments [--src args_src --cov args_cov]: the text on
    standard output afterwards, and how the call ended. *)
Definition main (fs : FS) (fuel : nat) (args_src args_cov : string)
    (stdout : string) : string * run unit :=
  let hash_fun := sha1_file_hash fs in
  let sep := TAB in
  match covered fs fuel (of_string args_src) (of_string args_cov) hash_fun with
  | Some (Ok missings) =>
      (foldl (λ out missing, print out (str missing.1 +:+ sep +:+ missing.2))
             stdout missings,
       Some (Ok ()))
  | Some (Err e) => (stdout, Some (Err e))
  | None => (stdout, None)
  end.

(** ** A finite file system with symbolic links *)

Module Disk.

(** What a canonical path names.  A directory lists, for each entry
    name, the canonical path the entry resolves to: for a plain entry
    that is the directory's own path extended by the name, for a
    symbolic link it is the canonical path of the link's target, which
    may be the directory itself or one of its ancestors. *)
Inductive node : Type :=
| Dir (entries : list (string * Path))
| File (data : list byte)
| Unreadable (directory : bool).

(** The objects of the file system by canonical path, and the working
    directory that relative paths start from. *)
Record disk : Type := mkDisk { nodes : gmap string node; cwd : Path }.

Fixpoint assoc {A} (name : string) (l : list (string * A)) : option A :=
  match l with
  | [] => None
  | (n, a) :: l' => if decide (n = name) then Some a else assoc name l'
  end.

Definition node_at (dk : disk) (c : Path) : option node := nodes dk !! str c.

(** One component further from the canonical path [c].  A name that is
    not there is appended as it is ([resolve] is not strict). *)
Definition child (dk : disk) (c : Path) (name : string) : Path :=
  match node_at dk c with
  | Some (Dir entries) =>
      match assoc name entries with
      | Some target => target
      | None => c // name
      end
  | _ => c // name
  end.

Definition disk_resolve (dk : disk) (p : Path) : Path :=
  foldl (child dk) (if root p then mkPath true [] else cwd dk) (parts p).

Definition disk_is_dir (dk : disk) (p : Path) : bool :=
  match node_at dk (disk_resolve dk p) with
  | Some (Dir _) | Some (Unreadable true) => true
  | _ => false
  end.

Definition disk_listdir (dk : disk) (p : Path) : result (list string) :=
  match node_at dk (disk_resolve dk p) with
  | Some (Dir entries) => Ok (entries.*1)
  | Some (Unreadable true) => Err (PermissionError (str p))
  | Some _ => Err (NotADirectoryError (str p))
  | None => Err (FileNotFoundError (str p))
  end.

Definition disk_open_rb (dk : disk) (p : Path) : result (list byte) :=
  match node_at dk (disk_resolve dk p) with
  | Some (File data) => Ok data
  | Some (Dir _) | Some (Unreadable true) => Err (IsADirectoryError (str p))
  | Some (Unreadable false) => Err (PermissionError (str p))
  | None => Err (FileNotFoundError (str p))
  end.

Definition fs_of (dk : disk) : FS :=
  {| listdir := disk_listdir dk;
     resolve := disk_resolve dk;
     is_dir := disk_is_dir dk;
     open_rb := disk_open_rb dk |}.

(** The canonical paths that entries of the disk's directories lead to. *)
Definition targets (dk : disk) : gset string :=
  list_to_set
    (mbind (λ kn : string * node,
              match kn.2 with
              | Dir entries => str <$> entries.*2
              | _ => []
              end)
           (map_to_list (nodes dk))).

End Disk.
Export Disk.

(** ** Sample file systems *)

Module Samples.

Definition bytes (s : string) : list byte := list_byte_of_string s.

(** A plain entry [name] of the directory with canonical path [dir]. *)
Definition plain (dir : string) (name : string) : string * Path :=
  (name, of_string dir // name).

(** A symbolic link [name] to the canonical path [target]. *)
Definition link (name : string) (target : string) : string * Path :=
  (name, of_string target).

(** [/A] holds [a.txt] and [sub/b.txt]; [/B] holds [c.txt] with the
    content of [a.txt]; [/E] is empty; [/A2] is a copy of [/A]. *)
Definition two_trees : disk :=
  {| cwd := of_string "/";
     nodes := list_to_map
       [ ("/", Dir [plain "/" "A"; plain "/" "B"; plain "/" "E"; plain "/" "A2"]);
         ("/A", Dir [plain "/A" "a.txt"; plain "/A" "sub"]);
         ("/A/a.txt", File (bytes "hello"));
         ("/A/sub", Dir [plain "/A/sub" "b.txt"]);
         ("/A/sub/b.txt", File (bytes "world"));
         ("/B", Dir [plain "/B" "c.txt"]);
         ("/B/c.txt", File (bytes "hello"));
         ("/E", Dir []);
         ("/A2", Dir [plain "/A2" "a.txt"; plain "/A2" "sub"]);
         ("/A2/a.txt", File (bytes "hello"));
         ("/A2/sub", Dir [plain "/A2/sub" "b.txt"]);
         ("/A2/sub/b.txt", File (bytes "world")) ] |}.

(** [/d] holds [a.txt], a link [self] to [/d] itself, and a directory
    [sub] with [b.txt] and a link [up] to [/d]. *)
Definition looped : disk :=
  {| cwd := of_string "/";
     nodes := list_to_map
       [ ("/", Dir [plain "/" "d"]);
         ("/d", Dir [plain "/d" "a.txt"; link "self" "/d"; plain "/d" "sub"]);
         ("/d/a.txt", File (bytes "hi"));
         ("/d/sub", Dir [plain "/d/sub" "b.txt"; link "up" "/d"]);
         ("/d/sub/b.txt", File (bytes "ho")) ] |}.

(** The working directory is [/home/u]; [s] holds two files with the
    same content and [c] is empty. *)
Definition home : disk :=
  {| cwd := of_string "/home/u";
     nodes := list_to_map
       [ ("/", Dir [plain "/" "home"]);
         ("/home", Dir [plain "/home" "u"]);
         ("/home/u", Dir [plain "/home/u" "s"; plain "/home/u" "c"]);
         ("/home/u/s", Dir [plain "/home/u/s" "x.txt"; plain "/home/u/s" "y.txt"]);
         ("/home/u/s/x.txt", File (bytes "same"));
         ("/home/u/s/y.txt", File (bytes "same"));
         ("/home/u/c", Dir []) ] |}.

(** The directory of the docstring of [_all_files_in_dir], after
    [test.txt] was written, and after [a_sub_dir/test2.txt] was added. *)
Definition doctest1 : disk :=
  {| cwd := of_string "/";
     nodes := list_to_map
       [ ("/", Dir [plain "/" "tmp"]);
         ("/tmp", Dir [plain "/tmp" "test__1234"]);
         ("/tmp/test__1234", Dir [plain "/tmp/test__1234" "test.txt"]);
         ("/tmp/test__1234/test.txt", File (bytes "test")) ] |}.

Definition doctest2 : disk :=
  {| cwd := of_string "/";
     nodes := list_to_map
       [ ("/", Dir [plain "/" "tmp"]);
         ("/tmp", Dir [plain "/tmp" "test__1234"]);
         ("/tmp/test__1234",
          Dir [plain "/tmp/test__1234" "test.txt"; plain "/tmp/test__1234" "a_sub_dir"]);
         ("/tmp/test__1234/test.txt", File (bytes "test"));
         ("/tmp/test__1234/a_sub_dir", Dir [plain "/tmp/test__1234/a_sub_dir" "test2.txt"]);
         ("/tmp/test__1234/a_sub_dir/test2.txt", File []) ] |}.

(** [/A] holds a readable file and one that cannot be opened. *)
Definition locked : disk :=
  {| cwd := of_string "/";
     nodes := list_to_map
       [ ("/", Dir [plain "/" "A"; plain "/" "B"]);
         ("/A", Dir [plain "/A" "secret"; plain "/A" "open.txt"]);
         ("/A/open.txt", File (bytes "data"));
         ("/A/secret", Unreadable false);
         ("/B", Dir []) ] |}.

End Samples.

(** ** Vocabulary of the statements *)

(** A monadic left fold: what a consumer computes from the files it is
    handed, one after the other. *)
Fixpoint foldM {A B} (body : A → B → result A) (acc : A) (l : list B) : result A :=
  match l with
  | [] => Ok acc
  | x :: l' => rbind (body acc x) (λ acc', foldM body acc' l')
  end.

Definition collect (fles : list Path) (fle : Path) : result (list Path) :=
  Ok (fles ++ [fle]).

(** The canonical name under which the loop remembers an entry. *)
Definition canon (fs : FS) (p : Path) : string := str (resolve fs p).

(** What [dir_contents] does with a yielded file. *)
Definition hash_body (hash_fun : Path → result string)
    (tups : list (Path * string)) (fle : Path) : result (list (Path * string)) :=
  rbind (hash_fun fle) (λ hsh, Ok (tups ++ [(fle, hsh)])).

(** The canonical name that a turn of the loop adds to [visited], if it
    adds one. *)
Definition marked (fs : FS) (st : gen_state) : option string :=
  match list_pop (left st) with
  | Some (_, fle) =>
      if decide (canon fs fle ∈ visited st) then None else Some (canon fs fle)
  | None => None
  end.

(** The canonical names added to [visited] in the course of a run of the
    generator, in the order in which they are added. *)
Fixpoint gen_marks (fs : FS) (fuel : nat) (st : gen_state) : list string :=
  match fuel with
  | O => []
  | S fuel' =>
      option_list (marked fs st) ++
      match loop_body fs st with
      | Revisit st' | Descend st' | Yield _ st' => gen_marks fs fuel' st'
      | Stop | Fail _ => []
      end
  end.

Definition all_marks (fs : FS) (fuel : nat) (d : Path) : list string :=
  match gen_start fs d with
  | Ok st => gen_marks fs fuel st
  | Err _ => []
  end.

(** The paths the traversal of [d] can come across: the entries of [d],
    and the entries of every directory among them. *)
Inductive reach (fs : FS) (d : Path) : Path → Prop :=
| reach_top names n :
    listdir fs d = Ok names → n ∈ names → reach fs d (d // n)
| reach_sub q names n :
    reach fs d q → is_dir fs q = true → listdir fs q = Ok names → n ∈ names →
    reach fs d (q // n).

(** The file system answers alike for two paths with the same canonical
    name: both are directories or neither is, a listing of one is a
    listing of the other, and equal entry names lead to the same
    canonical name. *)
Definition coherent (fs : FS) : Prop :=
  ∀ p q, canon fs p = canon fs q →
    is_dir fs p = is_dir fs q ∧
    ∀ names, listdir fs p = Ok names →
      listdir fs q = Ok names ∧
      ∀ n, n ∈ names → canon fs (p // n) = canon fs (q // n).

(** The entries that the directories named in [X] can add to the work
    list, when [deg] bounds the number of entries by canonical name. *)
Definition weight (deg : string → nat) (X : gset string) : nat :=
  sum_list_with deg (elements X).

(** The work that is left in a state: the entries still in [left], and
    the entries that directories not yet visited may add. *)
Definition potential (U : gset string) (deg : string → nat) (st : gen_state) : nat :=
  length (left st) + weight deg (U ∖ visited st).

Definition start_potential (fs : FS) (d : Path) (U : gset string)
    (deg : string → nat) : nat :=
  match listdir fs d with
  | Ok names => length names
  | Err _ => 0
  end + weight deg U.

(** The number of entries of the directory with canonical name [c]. *)
Definition disk_deg (dk : disk) (c : string) : nat :=
  match nodes dk !! c with
  | Some (Dir entries) => length entries
  | _ => 0
  end.

(** A step budget that is enough to list [d]: one turn for each entry of
    [d], one for each entry of each directory that an entry of the disk
    leads to, and the turn that finds [left] empty. *)
Definition traversal_bound (dk : disk) (d : Path) : nat :=
  S (start_potential (fs_of dk) d (targets dk) (disk_deg dk)).





(** The hash of a file is a function of the bytes the file holds. *)
Definition content_hash (fs : FS) (hash_fun : Path → result string)
    (digest : list byte → string) : Prop :=
  ∀ f, hash_fun f = rbind (open_rb fs f) (λ data, Ok (digest data)).


(** The text that [main] prints for a list of missing files. *)
Definition report_line (missing : Path * string) : string :=
  str missing.1 +:+ TAB +:+ missing.2 +:+ LF.

Fixpoint report (missings : list (Path * string)) : string :=
  match missings with
  | [] => ""
  | missing :: rest => report_line missing +:+ report rest
  end.

(** The hash of a file as a plain string, for files that can be hashed. *)
Definition hash_value (hash_fun : Path → result string) (f : Path) : string :=
  match hash_fun f with
  | Ok hsh => hsh
  | Err _ => ""
  end.

(** * Properties *)

(** ** Popping from the end of a list *)

Lemma list_pop_snoc {A} (l : list A) (x : A) : list_pop (l ++ [x]) = Some (l, x).
Proof.
  induction l as [|y l IH]; simpl; [done|]. by rewrite IH.
Qed.

Lemma list_pop_None {A} (l : list A) : list_pop l = None → l = [].
Proof.
  destruct l as [|x l]; simpl; [done|]. destruct (list_pop l) as [[??]|]; done.
Qed.

Lemma list_pop_Some {A} (l r : list A) (x : A) :
  list_pop l = Some (r, x) → l = r ++ [x].
Proof.
  revert r. induction l as [|y l IH]; intros r; simpl; [done|].
  destruct (list_pop l) as [[r' z]|] eqn:Hp.
  - intros [= <- <-]. simpl. f_equal. by apply IH.
  - intros [= <- <-]. apply list_pop_None in Hp. by subst.
Qed.

(** ** Driving the generator *)

Section Generator.
Context (fs : FS).

(** A run that finished keeps its result under any larger budget. *)
Lemma gen_run_mono {A} (body : A → Path → result A) fuel fuel' st acc r :
  gen_run fs body fuel st acc = Some r → fuel ≤ fuel' →
  gen_run fs body fuel' st acc = Some r.
Proof.
  revert fuel' st acc. induction fuel as [|fuel IH]; intros fuel' st acc; [done|].
  destruct fuel' as [|fuel']; [lia|]. simpl. intros Hrun Hle.
  destruct (loop_body fs st) as [|st'|st'|fle st'|e]; try done.
  - apply IH; [done|lia].
  - apply IH; [done|lia].
  - destruct (body acc fle); [|done]. apply IH; [done|lia].
Qed.

Lemma gen_consume_mono {A} (body : A → Path → result A) fuel fuel' d acc r :
  gen_consume fs body fuel d acc = Some r → fuel ≤ fuel' →
  gen_consume fs body fuel' d acc = Some r.
Proof.
  unfold gen_consume. destruct (gen_start fs d); [|done]. apply gen_run_mono.
Qed.

(** The files already collected do not influence the rest of the run. *)
Lemma gen_run_collect_acc fuel st acc :
  gen_run fs collect fuel st acc =
    match gen_run fs collect fuel st [] with
    | Some (Ok fles) => Some (Ok (acc ++ fles))
    | other => other
    end.
Proof.
  revert st acc. induction fuel as [|fuel IH]; intros st acc; [done|].
  simpl. destruct (loop_body fs st) as [|st'|st'|fle st'|e]; try done.
  - by rewrite app_nil_r.
  - rewrite (IH st' (acc ++ [fle])), (IH st' [fle]).
    destruct (gen_run fs collect fuel st' []) as [[fles|]|]; [|done..].
    by rewrite <-app_assoc.
Qed.

(** Any consumer sees the files of the listing, in order, and stops at
    the first one it fails on. *)
Lemma gen_run_fold {A} (body : A → Path → result A) fuel st acc fles :
  gen_run fs collect fuel st [] = Some (Ok fles) →
  gen_run fs body fuel st acc = Some (foldM body acc fles).
Proof.
  revert st acc fles. induction fuel as [|fuel IH]; intros st acc fles; [done|].
  simpl. destruct (loop_body fs st) as [|st'|st'|fle st'|e]; try done.
  - by intros [= <-].
  - apply IH.
  - apply IH.
  - rewrite gen_run_collect_acc.
    destruct (gen_run fs collect fuel st' []) as [[fles'|]|] eqn:Hrun; [|done..].
    intros [= <-]. simpl. destruct (body acc fle) as [acc'|e]; simpl; [|done].
    by apply IH.
Qed.

Lemma gen_consume_fold {A} (body : A → Path → result A) fuel d acc fles :
  _all_files_in_dir fs fuel d = Some (Ok fles) →
  gen_consume fs body fuel d acc = Some (foldM body acc fles).
Proof.
  unfold _all_files_in_dir, gen_consume.
  destruct (gen_start fs d); [|done]. apply gen_run_fold.
Qed.

End Generator.

(** ** Hashing a listing *)

Section Contents.
Context (fs : FS).

Lemma foldM_hash_ok hash_fun (hs : Path → string) tups fles :
  (∀ f, f ∈ fles → hash_fun f = Ok (hs f)) →
  foldM (hash_body hash_fun) tups fles = Ok (tups ++ ((λ f, (f, hs f)) <$> fles)).
Proof.
  revert tups. induction fles as [|f fles IH]; intros tups Hh; simpl.
  - by rewrite app_nil_r.
  - unfold hash_body at 1. rewrite (Hh f) by set_solver. simpl.
    rewrite IH by set_solver. by rewrite <-app_assoc.
Qed.


Lemma dir_contents_fold fuel d hash_fun fles :
  _all_files_in_dir fs fuel d = Some (Ok fles) →
  dir_contents fs fuel d hash_fun = Some (foldM (hash_body hash_fun) [] fles).
Proof. apply gen_consume_fold. Qed.

Lemma dir_contents_ok fuel d hash_fun (hs : Path → string) fles :
  _all_files_in_dir fs fuel d = Some (Ok fles) →
  (∀ f, f ∈ fles → hash_fun f = Ok (hs f)) →
  dir_contents fs fuel d hash_fun = Some (Ok ((λ f, (f, hs f)) <$> fles)).
Proof.
  intros Hfiles Hh. rewrite (dir_contents_fold _ _ _ _ Hfiles).
  by rewrite (foldM_hash_ok _ hs).
Qed.

Lemma dir_contents_mono fuel fuel' d hash_fun r :
  dir_contents fs fuel d hash_fun = Some r → fuel ≤ fuel' →
  dir_contents fs fuel' d hash_fun = Some r.
Proof. apply gen_consume_mono. Qed.

(** ** The membership filter *)

Lemma missing_loop_filter (hashes_cov : gset string) contents_src :
  missing_loop hashes_cov contents_src =
    filter (λ t, t.2 ∉ hashes_cov) contents_src.
Proof.
  unfold missing_loop.
  enough (∀ acc, foldl (λ missings '(fle_src, hash_src),
                   if decide (hash_src ∉ hashes_cov)
                   then missings ++ [(fle_src, hash_src)] else missings)
                 acc contents_src
                 = acc ++ filter (λ t, t.2 ∉ hashes_cov) contents_src) as H
    by apply (H []).
  induction contents_src as [|[f h] cs IH]; intros acc; simpl.
  - by rewrite app_nil_r.
  - rewrite IH, filter_cons. simpl.
    destruct (decide (h ∉ hashes_cov)); [|done]. by rewrite <-app_assoc.
Qed.

(** [covered] is the composition of the two listings with the filter;
    an exception or an exhausted budget in either listing is the
    outcome of the whole call. *)
Lemma covered_unfold fuel src covered_by hash_fun :
  covered fs fuel src covered_by hash_fun =
    (contents_src ← dir_contents fs fuel src hash_fun;
     contents_cov ← dir_contents fs fuel covered_by hash_fun;
     mret (filter (λ t, t.2 ∉ contents_cov.*2) contents_src)).
Proof.
  unfold covered.
  destruct (dir_contents fs fuel src hash_fun) as [[cs|]|]; simpl; [|done..].
  destruct (dir_contents fs fuel covered_by hash_fun) as [[cc|]|]; simpl; [|done..].
  rewrite missing_loop_filter. do 2 f_equal.
  apply list_filter_iff. intros t. by rewrite elem_of_list_to_set.
Qed.

Lemma covered_inv fuel src covered_by hash_fun missings :
  covered fs fuel src covered_by hash_fun = Some (Ok missings) →
  ∃ cs cc, dir_contents fs fuel src hash_fun = Some (Ok cs) ∧
           dir_contents fs fuel covered_by hash_fun = Some (Ok cc) ∧
           missings = filter (λ t, t.2 ∉ cc.*2) cs.
Proof.
  rewrite covered_unfold.
  destruct (dir_contents fs fuel src hash_fun) as [[cs|]|]; simpl; [|done..].
  destruct (dir_contents fs fuel covered_by hash_fun) as [[cc|]|]; simpl; [|done..].
  intros [= <-]. eauto.
Qed.

Lemma covered_mono fuel fuel' src covered_by hash_fun r :
  covered fs fuel src covered_by hash_fun = Some r → fuel ≤ fuel' →
  covered fs fuel' src covered_by hash_fun = Some r.
Proof.
  rewrite !covered_unfold. intros Hrun Hle.
  destruct (dir_contents fs fuel src hash_fun) as [rs|] eqn:Hs; [|done].
  rewrite (dir_contents_mono _ _ _ _ _ Hs Hle).
  destruct rs as [cs|e]; [|done]. simpl in *.
  destruct (dir_contents fs fuel covered_by hash_fun) as [rc|] eqn:Hc; [|done].
  by rewrite (dir_contents_mono _ _ _ _ _ Hc Hle).
Qed.

End Contents.

(** ** The traversal *)

Section Traversal.
Context (fs : FS) (d : Path).

(** What each outcome of [loop_body] says about the state before and
    after.  An entry gets past the test on [visited] only if its
    canonical name is new, and the name is recorded at once: no
    canonical name gets past the test twice. *)
Lemma loop_body_inv st :
  match loop_body fs st with
  | Stop => left st = []
  | Revisit st' =>
      ∃ p, left st = left st' ++ [p] ∧ canon fs p ∈ visited st ∧
           visited st' = visited st
  | Descend st' =>
      ∃ p rest names,
        left st = rest ++ [p] ∧ (canon fs p ∉ visited st) ∧
        visited st' = visited st ∪ {[ canon fs p ]} ∧
        is_dir fs p = true ∧ listdir fs p = Ok names ∧
        left st' = rest ++ (joinpath p <$> names)
  | Yield fle st' =>
      left st = left st' ++ [fle] ∧ (canon fs fle ∉ visited st) ∧
      visited st' = visited st ∪ {[ canon fs fle ]} ∧ is_dir fs fle = false
  | Fail e =>
      ∃ p rest, left st = rest ++ [p] ∧ (canon fs p ∉ visited st) ∧
                is_dir fs p = true ∧ listdir fs p = Err e
  end.
Proof.
  unfold loop_body.
  destruct (list_pop (left st)) as [[rest p]|] eqn:Hpop.
  - apply list_pop_Some in Hpop. fold (canon fs p).
    destruct (decide (canon fs p ∈ visited st)); [by exists p|].
    destruct (is_dir fs p) eqn:Hdir; [|done].
    unfold iterdir. destruct (listdir fs p) as [names|e] eqn:Hls; simpl.
    + by exists p, rest, names.
    + by exists p, rest.
  - by apply list_pop_None.
Qed.

(** *** What is marked *)




(** *** What is yielded *)

(** Every yielded path is an entry met by the traversal that is not a
    directory, and no two yielded paths have the same canonical name. *)
Lemma gen_run_sound fuel st fles :
  gen_run fs collect fuel st [] = Some (Ok fles) →
  Forall (reach fs d) (left st) →
  Forall (λ f, reach fs d f ∧ is_dir fs f = false ∧ canon fs f ∉ visited st) fles ∧
  NoDup (canon fs <$> fles).
Proof.
  revert st fles. induction fuel as [|fuel IH]; intros st fles; [done|].
  simpl. pose proof (loop_body_inv st) as Hinv.
  destruct (loop_body fs st) as [|st'|st'|fle st'|e]; try done.
  - intros [= <-] _. split; constructor.
  - destruct Hinv as (p & Hleft & Hp & Hvis). intros Hrun Hreach.
    rewrite Hleft in Hreach. apply Forall_app in Hreach as [Hreach _].
    destruct (IH _ _ Hrun Hreach) as [Hall Hnd]. split; [|done].
    by rewrite Hvis in Hall.
  - destruct Hinv as (p & rest & names & Hleft & Hp & Hvis & Hdir & Hls & Hleft').
    intros Hrun Hreach.
    rewrite Hleft in Hreach. apply Forall_app in Hreach as [Hreach Hrp].
    rewrite Forall_singleton in Hrp.
    assert (Forall (reach fs d) (left st')) as Hreach'.
    { rewrite Hleft'. apply Forall_app. split; [done|].
      apply Forall_fmap, Forall_forall. intros n Hn. simpl.
      by apply (reach_sub fs d p names). }
    destruct (IH _ _ Hrun Hreach') as [Hall Hnd]. split; [|done].
    eapply Forall_impl; [exact Hall|]. rewrite Hvis. set_solver.
  - destruct Hinv as (Hleft & Hp & Hvis & Hdir).
    rewrite gen_run_collect_acc.
    destruct (gen_run fs collect fuel st' []) as [[fles'|]|] eqn:Hrun; [|done..].
    intros [= <-] Hreach.
    rewrite Hleft in Hreach. apply Forall_app in Hreach as [Hreach Hrp].
    rewrite Forall_singleton in Hrp.
    destruct (IH _ _ Hrun Hreach) as [Hall Hnd]. simpl. split.
    + constructor; [done|].
      eapply Forall_impl; [exact Hall|]. rewrite Hvis. set_solver.
    + constructor; [|done].
      intros (f & Hcf & Hf)%list_elem_of_fmap.
      rewrite Forall_forall in Hall. destruct (Hall f Hf) as (_ & _ & Hnv).
      rewrite Hvis in Hnv. set_solver.
Qed.

(** *** What is not missed *)

(** At the end of a run the set [visited] holds the canonical names of
    everything left to do at the start, is closed under listing, and
    each of its new names that is not a directory was yielded. *)
Lemma gen_run_closed fuel st fles :
  coherent fs →
  gen_run fs collect fuel st [] = Some (Ok fles) →
  ∃ V : gset string,
    visited st ⊆ V ∧
    (∀ p, p ∈ left st → canon fs p ∈ V) ∧
    ∀ q, canon fs q ∈ V → canon fs q ∉ visited st →
      (is_dir fs q = true → ∀ names n,
         listdir fs q = Ok names → n ∈ names → canon fs (q // n) ∈ V) ∧
      (is_dir fs q = false → ∃ f, f ∈ fles ∧ canon fs f = canon fs q).
Proof.
  intros Hcoh. revert st fles. induction fuel as [|fuel IH]; intros st fles; [done|].
  simpl. pose proof (loop_body_inv st) as Hinv.
  destruct (loop_body fs st) as [|st'|st'|fle st'|e]; try done.
  - intros [= <-]. exists (visited st). rewrite Hinv. set_solver.
  - destruct Hinv as (p & Hleft & Hp & Hvis). intros Hrun.
    destruct (IH _ _ Hrun) as (V & Hsub & Hl & Hcl). exists V.
    rewrite Hvis in Hsub, Hcl. split_and!; [done| |done].
    intros p'. rewrite Hleft.
    intros [?|Hp'%list_elem_of_singleton]%elem_of_app; [by apply Hl|set_solver].
  - destruct Hinv as (p & rest & names & Hleft & Hp & Hvis & Hdir & Hls & Hleft').
    intros Hrun.
    destruct (IH _ _ Hrun) as (V & Hsub & Hl & Hcl). exists V.
    rewrite Hvis in Hsub, Hcl. rewrite Hleft' in Hl. split_and!.
    + set_solver.
    + intros p'. rewrite Hleft.
      intros [?|Hp'%list_elem_of_singleton]%elem_of_app; [|set_solver].
      apply Hl. set_solver.
    + intros q HqV Hqv.
      destruct (decide (canon fs q = canon fs p)) as [Heq|Hne]; [|apply Hcl; set_solver].
      destruct (Hcoh q p Heq) as [Hd Hnames]. split; [|congruence].
      intros _ names' n Hls' Hn.
      destruct (Hnames _ Hls') as [Hls'' Hch].
      rewrite (Hch n Hn). apply Hl, elem_of_app. right.
      apply list_elem_of_fmap. exists n. split; [done|]. congruence.
  - destruct Hinv as (Hleft & Hp & Hvis & Hdir).
    rewrite gen_run_collect_acc.
    destruct (gen_run fs collect fuel st' []) as [[fles'|]|] eqn:Hrun; [|done..].
    intros [= <-].
    destruct (IH _ _ Hrun) as (V & Hsub & Hl & Hcl). exists V.
    rewrite Hvis in Hsub, Hcl. split_and!.
    + set_solver.
    + intros p'. rewrite Hleft.
      intros [?|Hp'%list_elem_of_singleton]%elem_of_app; [by apply Hl|set_solver].
    + intros q HqV Hqv.
      destruct (decide (canon fs q = canon fs fle)) as [Heq|Hne].
      * destruct (Hcoh q fle Heq) as [Hd _]. split; [congruence|].
        intros _. exists fle. set_solver.
      * destruct (Hcl q HqV) as [Hc1 Hc2]; [set_solver|]. split; [done|].
        intros Hq. destruct (Hc2 Hq) as (f & Hf & Hcf). exists f. set_solver.
Qed.

(** Every file the traversal of [d] can come across is yielded under
    some path. *)
Lemma all_files_complete fuel fles p :
  coherent fs →
  _all_files_in_dir fs fuel d = Some (Ok fles) →
  reach fs d p → is_dir fs p = false →
  ∃ f, f ∈ fles ∧ canon fs f = canon fs p.
Proof.
  intros Hcoh. unfold _all_files_in_dir, gen_consume, gen_start, iterdir.
  destruct (listdir fs d) as [names|] eqn:Hls; simpl; [|done].
  intros (V & _ & Hl & Hcl)%gen_run_closed; [|done]. simpl in *.
  intros Hreach.
  assert (canon fs p ∈ V) as HpV.
  { induction Hreach as [names' n Hls' Hn|q names' n Hq IHq Hdir Hls' Hn].
    - apply Hl, list_elem_of_fmap. exists n. split; [done|]. congruence.
    - destruct (Hcl q IHq) as [Hc _]; [set_solver|]. by eapply Hc. }
  intros Hdir. destruct (Hcl p HpV) as [_ Hc]; [set_solver|]. by apply Hc.
Qed.

Lemma all_files_sound fuel fles :
  _all_files_in_dir fs fuel d = Some (Ok fles) →
  Forall (λ f, reach fs d f ∧ is_dir fs f = false) fles ∧ NoDup (canon fs <$> fles).
Proof.
  unfold _all_files_in_dir, gen_consume, gen_start, iterdir.
  destruct (listdir fs d) as [names|] eqn:Hls; simpl; [|done].
  intros [Hall Hnd]%gen_run_sound.
  - split; [|done]. eapply Forall_impl; [exact Hall|]. naive_solver.
  - simpl. apply Forall_fmap, Forall_forall. intros n Hn. simpl.
    by apply (reach_top fs d names).
Qed.

End Traversal.

(** ** Termination *)

Section Termination.
Context (fs : FS) (d : Path).

(** [U] is a finite set that holds the canonical name of everything the
    traversal can come across, and [deg] bounds the number of entries of
    each directory by its canonical name. *)
Context (U : gset string) (deg : string → nat).
Hypothesis U_reach : ∀ p, reach fs d p → canon fs p ∈ U.
Hypothesis deg_bound : ∀ p names,
  reach fs d p → is_dir fs p = true → listdir fs p = Ok names →
  length names ≤ deg (canon fs p).

Lemma weight_remove (X : gset string) c :
  c ∈ X → weight deg X = deg c + weight deg (X ∖ {[ c ]}).
Proof.
  intros Hc. unfold weight.
  assert (X = {[ c ]} ∪ X ∖ {[ c ]}) as HX.
  { apply set_eq. intros x. destruct (decide (x = c)); set_solver. }
  rewrite HX at 1. rewrite elements_union_singleton by set_solver. done.
Qed.

Lemma potential_visit st c :
  c ∈ U → c ∉ visited st →
  weight deg (U ∖ visited st) = deg c + weight deg (U ∖ (visited st ∪ {[ c ]})).
Proof.
  intros HcU Hcv. rewrite (weight_remove (U ∖ visited st) c) by set_solver.
  do 2 f_equal. set_solver.
Qed.

(** Each turn of the loop lowers the potential, so a budget above the
    potential is enough, whatever the consumer does. *)
Lemma gen_run_terminates {A} (body : A → Path → result A) fuel st acc :
  Forall (reach fs d) (left st) → potential U deg st < fuel →
  is_Some (gen_run fs body fuel st acc).
Proof.
  revert st acc. induction fuel as [|fuel IH]; intros st acc Hreach Hpot; [lia|].
  simpl. pose proof (loop_body_inv fs st) as Hinv. unfold potential in *.
  destruct (loop_body fs st) as [|st'|st'|fle st'|e]; try done.
  - destruct Hinv as (p & Hleft & Hp & Hvis).
    rewrite Hleft, Forall_app in Hreach. destruct Hreach as [Hreach _].
    apply IH; [done|]. rewrite Hvis. rewrite Hleft, length_app in Hpot. simpl in Hpot. lia.
  - destruct Hinv as (p & rest & names & Hleft & Hp & Hvis & Hdir & Hls & Hleft').
    rewrite Hleft, Forall_app, Forall_singleton in Hreach.
    destruct Hreach as [Hreach Hrp].
    apply IH.
    + rewrite Hleft'. apply Forall_app. split; [done|].
      apply Forall_fmap, Forall_forall. intros n Hn. simpl.
      by apply (reach_sub fs d p names).
    + rewrite Hleft', Hvis, length_app, length_fmap.
      rewrite Hleft, length_app in Hpot. simpl in Hpot.
      rewrite (potential_visit st (canon fs p)) in Hpot by auto.
      pose proof (deg_bound p names Hrp Hdir Hls). lia.
  - destruct Hinv as (Hleft & Hp & Hvis & Hdir).
    rewrite Hleft, Forall_app, Forall_singleton in Hreach.
    destruct Hreach as [Hreach Hrp].
    destruct (body acc fle) as [acc'|e]; [|done].
    apply IH; [done|]. rewrite Hvis.
    rewrite Hleft, length_app in Hpot. simpl in Hpot.
    rewrite (potential_visit st (canon fs fle)) in Hpot by auto. lia.
Qed.

Lemma gen_consume_terminates {A} (body : A → Path → result A) fuel acc :
  start_potential fs d U deg < fuel → is_Some (gen_consume fs body fuel d acc).
Proof.
  unfold start_potential, gen_consume, gen_start, iterdir.
  destruct (listdir fs d) as [names|e] eqn:Hls; simpl; [|done].
  intros Hfuel. apply gen_run_terminates; simpl.
  - apply Forall_fmap, Forall_forall. intros n Hn. simpl.
    by apply (reach_top fs d names).
  - unfold potential. simpl. rewrite length_fmap.
    replace (U ∖ ∅) with U by set_solver. lia.
Qed.


End Termination.

(** ** Every disk is finite and coherent *)

Lemma assoc_elem {A} (n : string) (es : list (string * A)) :
  n ∈ es.*1 → ∃ t, assoc n es = Some t ∧ (n, t) ∈ es.
Proof.
  induction es as [|[m a] es IH]; simpl; [set_solver|].
  destruct (decide (m = n)) as [->|Hne].
  - intros _. exists a. set_solver.
  - intros [?|Hin]%elem_of_cons; [done|].
    destruct (IH Hin) as (t & Ht & Hel). exists t. set_solver.
Qed.

Lemma filter_none {A} (P : A → Prop) `{∀ x, Decision (P x)} (l : list A) :
  (∀ x, x ∈ l → ¬ P x) → filter P l = [].
Proof.
  induction l as [|y l IH]; intros Hl; [done|].
  rewrite filter_cons_False by (apply Hl; set_solver). apply IH. set_solver.
Qed.

Lemma filter_all {A} (P : A → Prop) `{∀ x, Decision (P x)} (l : list A) :
  (∀ x, x ∈ l → P x) → filter P l = l.
Proof.
  induction l as [|y l IH]; intros Hl; [done|].
  rewrite filter_cons_True by (apply Hl; set_solver). f_equal. apply IH. set_solver.
Qed.


Section DiskFacts.
Context (dk : disk).

Lemma disk_resolve_join p n :
  disk_resolve dk (p // n) = child dk (disk_resolve dk p) n.
Proof. unfold disk_resolve, joinpath. simpl. by rewrite foldl_app. Qed.

Lemma disk_listdir_inv p names :
  disk_listdir dk p = Ok names →
  ∃ es, node_at dk (disk_resolve dk p) = Some (Dir es) ∧ names = es.*1.
Proof.
  unfold disk_listdir.
  destruct (node_at dk (disk_resolve dk p)) as [[es|data|[|]]|]; try done.
  intros [= <-]. by exists es.
Qed.

Lemma disk_child p es n :
  node_at dk (disk_resolve dk p) = Some (Dir es) → n ∈ es.*1 →
  ∃ t, (n, t) ∈ es ∧ disk_resolve dk (p // n) = t.
Proof.
  intros Hnode (t & Ht & Hel)%assoc_elem. exists t. split; [done|].
  rewrite disk_resolve_join. unfold child. by rewrite Hnode, Ht.
Qed.

Lemma disk_child_target p names n :
  disk_listdir dk p = Ok names → n ∈ names →
  canon (fs_of dk) (p // n) ∈ targets dk.
Proof.
  intros (es & Hnode & ->)%disk_listdir_inv Hn.
  destruct (disk_child p es n Hnode Hn) as (t & Ht & Hres).
  unfold canon, targets. simpl. rewrite Hres.
  apply elem_of_list_to_set, list_elem_of_bind.
  exists (str (disk_resolve dk p), Dir es). split.
  - simpl. apply list_elem_of_fmap. exists t. split; [done|].
    apply list_elem_of_fmap. by exists (n, t).
  - by apply elem_of_map_to_list.
Qed.

Lemma disk_reach_target d p : reach (fs_of dk) d p → canon (fs_of dk) p ∈ targets dk.
Proof. intros [names n Hls Hn|q names n _ _ Hls Hn]; by eapply disk_child_target. Qed.

Lemma disk_deg_bound p names :
  disk_listdir dk p = Ok names → length names = disk_deg dk (canon (fs_of dk) p).
Proof.
  intros (es & Hnode & ->)%disk_listdir_inv. unfold disk_deg, canon. simpl.
  unfold node_at in Hnode. by rewrite Hnode, length_fmap.
Qed.

Lemma disk_coherent : coherent (fs_of dk).
Proof.
  intros p q Heq. unfold canon in Heq. simpl in *.
  assert (node_at dk (disk_resolve dk p) = node_at dk (disk_resolve dk q)) as Hnode
    by (unfold node_at; by rewrite Heq).
  split; [unfold disk_is_dir; by rewrite Hnode|].
  intros names Hls. split; [|intros n Hn].
  - apply disk_listdir_inv in Hls as (es & Hp & ->).
    unfold disk_listdir. by rewrite <-Hnode, Hp.
  - apply disk_listdir_inv in Hls as (es & Hp & ->).
    destruct (disk_child p es n Hp Hn) as (t & Ht & Hres).
    apply assoc_elem in Hn as (t' & Ht' & _).
    unfold canon. simpl. rewrite !disk_resolve_join. unfold child.
    by rewrite <-Hnode, Hp, Ht'.
Qed.

Lemma disk_terminates {A} (body : A → Path → result A) d fuel acc :
  traversal_bound dk d ≤ fuel → is_Some (gen_consume (fs_of dk) body fuel d acc).
Proof.
  intros Hfuel. apply (gen_consume_terminates _ d (targets dk) (disk_deg dk)).
  - apply disk_reach_target.
  - intros p names _ _ Hls. by rewrite (disk_deg_bound p names).
  - unfold traversal_bound in Hfuel. lia.
Qed.

End DiskFacts.

(** ** The digest *)

Section Digest.
Import Hashlib.
Local Open Scope Z_scope.













End Digest.

(** ** Reading in chunks *)

(** Whatever the positive size of the buffer, the loop feeds the whole
    content to the hash object, in order. *)
Lemma read_loop_spec (buf_size : N) (f : list byte) (sha1 : Hashlib.sha1) :
  (0 < buf_size)%N → read_loop buf_size f sha1 = sha1 ++ f.
Proof.
  revert buf_size f sha1.
  apply (read_loop_elim (λ n f s r, (0 < n)%N → r = s ++ f)).
  - intros n f rest e s _ Hpos. unfold read in e. injection e as Htake _.
    destruct f as [|b f]; [by rewrite app_nil_r|].
    destruct (N.to_nat n) eqn:Hn; [lia|done].
  - intros n f b l f' e s IH _ Hpos. unfold read in e. injection e as Htake Hdrop.
    rewrite (IH Hpos). unfold Hashlib.update.
    rewrite <-app_assoc, <-Htake, <-Hdrop. by rewrite take_drop.
Qed.

Lemma sha1_file_hash_unfold (fs : FS) (fle : Path) :
  sha1_file_hash fs fle =
    rbind (open_rb fs fle) (λ data, Ok (Hashlib.hexdigest data)).
Proof.
  unfold sha1_file_hash. destruct (open_rb fs fle) as [data|e]; simpl; [|done].
  by rewrite read_loop_spec.
Qed.

(** * The claims *)

(** ** Tree enumerator *)



(** ** Comparator *)

(** With both trees listed and hashed, the result is the source listing
    filtered by membership of the hash in the coverage listing. *)
Lemma covered_listing (fs : FS) (fuel : nat) (src covered_by : Path)
    (hash_fun : Path → result string) (hs : Path → string)
    (fles_src fles_cov : list Path) :
  _all_files_in_dir fs fuel src = Some (Ok fles_src) →
  _all_files_in_dir fs fuel covered_by = Some (Ok fles_cov) →
  (∀ f, f ∈ fles_src ++ fles_cov → hash_fun f = Ok (hs f)) →
  covered fs fuel src covered_by hash_fun =
    Some (Ok (filter (λ t, t.2 ∉ hs <$> fles_cov) ((λ f, (f, hs f)) <$> fles_src))).
Proof.
  intros Hsrc Hcov Hh. rewrite covered_unfold.
  rewrite (dir_contents_ok fs fuel src hash_fun hs fles_src) by set_solver.
  rewrite (dir_contents_ok fs fuel covered_by hash_fun hs fles_cov) by set_solver.
  simpl. unfold mret, run_ret. do 2 f_equal. apply list_filter_iff. intros t.
  by rewrite <-list_fmap_compose.
Qed.

(** C1. When both trees can be listed and hashed, [covered] returns the
    (path, hash) pairs of the source listing whose hash is not the hash
    of any file of the coverage listing, in the order of the source
    listing; a source file whose hash is the hash of some coverage file
    is not in the result, whatever the two files are called. *)
Theorem covered_filters_source (fs : FS) (fuel : nat) (src covered_by : Path)
    (hash_fun : Path → result string) (hs : Path → string)
    (fles_src fles_cov : list Path) :
  _all_files_in_dir fs fuel src = Some (Ok fles_src) →
  _all_files_in_dir fs fuel covered_by = Some (Ok fles_cov) →
  (∀ f, f ∈ fles_src ++ fles_cov → hash_fun f = Ok (hs f)) →
  ∃ missings,
    covered fs fuel src covered_by hash_fun = Some (Ok missings) ∧
    missings = filter (λ t, t.2 ∉ hs <$> fles_cov) ((λ f, (f, hs f)) <$> fles_src) ∧
    ∀ f g, f ∈ fles_src → g ∈ fles_cov → hs f = hs g → f ∉ missings.*1.
Proof.
  intros Hsrc Hcov Hh. eexists. split; [|split; [reflexivity|]].
  - by apply covered_listing.
  - intros f g Hf Hg Heq (t & -> & Ht)%list_elem_of_fmap.
    apply list_elem_of_filter in Ht as [Hnot Ht].
    apply list_elem_of_fmap in Ht as (f' & -> & _). simpl in *.
    apply Hnot. rewrite Heq. by apply list_elem_of_fmap_2.
Qed.

(** C2. When every file of [A] has the content of some file of [B], in
    particular when [B] is a copy of [A], [covered] returns the empty
    list. *)
Theorem covered_by_copy_is_empty (fs : FS) (fuel : nat) (A B : Path)
    (hash_fun : Path → result string) (digest : list byte → string)
    (fles_A fles_B : list Path) :
  _all_files_in_dir fs fuel A = Some (Ok fles_A) →
  _all_files_in_dir fs fuel B = Some (Ok fles_B) →
  content_hash fs hash_fun digest →
  (∀ g, g ∈ fles_B → ∃ data, open_rb fs g = Ok data) →
  (∀ f, f ∈ fles_A →
     ∃ g data, g ∈ fles_B ∧ open_rb fs f = Ok data ∧ open_rb fs g = Ok data) →
  covered fs fuel A B hash_fun = Some (Ok []).
Proof.
  intros HA HB Hh HrB HAB.
  set (hs := λ f, match open_rb fs f with Ok data => digest data | Err _ => "" end).
  assert (∀ f, f ∈ fles_A ++ fles_B → hash_fun f = Ok (hs f)) as Hhs.
  { intros f [Hf|Hf]%elem_of_app; rewrite Hh; unfold hs.
    - destruct (HAB f Hf) as (g & data & _ & -> & _). done.
    - destruct (HrB f Hf) as (data & ->). done. }
  rewrite (covered_listing fs fuel A B hash_fun hs fles_A fles_B HA HB Hhs).
  do 2 f_equal. apply filter_none. intros t (f & -> & Hf)%list_elem_of_fmap Hnot.
  apply Hnot. simpl. destruct (HAB f Hf) as (g & data & Hg & Hfd & Hgd).
  apply list_elem_of_fmap. exists g. split; [|done]. unfold hs. by rewrite Hfd, Hgd.
Qed.

(** C3. When the coverage tree holds no file and the source tree holds
    [k] files, [covered] returns [k] entries: each source file in turn,
    with the hash computed for it. *)
Theorem covered_by_empty_reports_all (fs : FS) (fuel : nat) (A B : Path)
    (hash_fun : Path → result string) (hs : Path → string)
    (fles_A : list Path) (k : nat) :
  _all_files_in_dir fs fuel A = Some (Ok fles_A) →
  _all_files_in_dir fs fuel B = Some (Ok []) →
  length fles_A = k →
  (∀ f, f ∈ fles_A → hash_fun f = Ok (hs f)) →
  ∃ missings,
    covered fs fuel A B hash_fun = Some (Ok missings) ∧
    missings = (λ f, (f, hs f)) <$> fles_A ∧
    length missings = k.
Proof.
  intros HA HB Hk Hh. eexists. split; [|split; [reflexivity|]].
  - rewrite (covered_listing fs fuel A B hash_fun hs fles_A []); try done.
    + do 2 f_equal. apply filter_all. simpl. set_solver.
    + by rewrite app_nil_r.
  - by rewrite length_fmap.
Qed.

Lemma count_missing (hs : Path → string) (cov : list string) (h : string)
    (fles : list Path) :
  h ∉ cov →
  length (filter (λ t : Path * string, t.2 = h)
            (filter (λ t, t.2 ∉ cov) ((λ f, (f, hs f)) <$> fles))) =
  length (filter (λ f, hs f = h) fles).
Proof.
  intros Hh. induction fles as [|f fles IH]; [done|].
  rewrite fmap_cons, !filter_cons. simpl.
  destruct (decide (hs f = h)) as [Heq|Hne].
  - rewrite decide_True by congruence. rewrite filter_cons. simpl.
    rewrite decide_True by done. simpl. by rewrite IH.
  - destruct (decide (hs f ∉ cov)); [|done].
    rewrite filter_cons. simpl. by rewrite decide_False.
Qed.

(** C7. The report is not deduplicated by hash: for a hash that no
    coverage file has, the report holds as many entries with that hash
    as the source listing holds files with it, one for each of them. *)
Theorem covered_reports_each_duplicate (fs : FS) (fuel : nat)
    (src covered_by : Path) (hash_fun : Path → result string)
    (hs : Path → string) (fles_src fles_cov : list Path) (h : string) :
  _all_files_in_dir fs fuel src = Some (Ok fles_src) →
  _all_files_in_dir fs fuel covered_by = Some (Ok fles_cov) →
  (∀ f, f ∈ fles_src ++ fles_cov → hash_fun f = Ok (hs f)) →
  h ∉ hs <$> fles_cov →
  ∃ missings,
    covered fs fuel src covered_by hash_fun = Some (Ok missings) ∧
    length (filter (λ t, t.2 = h) missings) =
      length (filter (λ f, hs f = h) fles_src) ∧
    ∀ f, f ∈ fles_src → hs f = h → (f, h) ∈ missings.
Proof.
  intros Hsrc Hcov Hh Hnot. eexists. split; [by apply covered_listing|]. split.
  - by apply count_missing.
  - intros f Hf <-. apply list_elem_of_filter. split; [done|].
    by apply (list_elem_of_fmap_2 (λ f, (f, hs f))).
Qed.

Lemma filter_nil_inv {A} (P : A → Prop) `{∀ x, Decision (P x)} (l : list A) :
  filter P l = [] → ∀ x, x ∈ l → ¬ P x.
Proof. intros Hnil x Hx HP. by apply (filter_nil_not_elem_of P l x). Qed.

(** C10. Coverage is transitive: when [covered] finds nothing missing
    from [A] in [B] and nothing missing from [B] in [C], it finds nothing
    missing from [A] in [C]. *)
Theorem covered_transitive (fs : FS) (hash_fun : Path → result string)
    (A B C : Path) (fuel1 fuel2 fuel3 : nat) :
  fuel1 ≤ fuel3 → fuel2 ≤ fuel3 →
  covered fs fuel1 A B hash_fun = Some (Ok []) →
  covered fs fuel2 B C hash_fun = Some (Ok []) →
  covered fs fuel3 A C hash_fun = Some (Ok []).
Proof.
  intros H13 H23 HAB HBC.
  apply (covered_mono fs fuel1 fuel3) in HAB; [|done].
  apply (covered_mono fs fuel2 fuel3) in HBC; [|done].
  apply covered_inv in HAB as (ca & cb & HA & HB & HAB).
  apply covered_inv in HBC as (cb' & cc & HB' & HC & HBC).
  rewrite HB in HB'. injection HB' as <-.
  rewrite covered_unfold, HA, HC. simpl. unfold mret, run_ret. do 2 f_equal.
  apply filter_none. intros t Ht Hnot.
  apply (filter_nil_inv _ _ (eq_sym HAB) t Ht). intros Htb. apply Hnot.
  apply list_elem_of_fmap in Htb as (u & Htu & Hu). rewrite Htu.
  destruct (decide (u.2 ∈ cc.*2)) as [|Hn]; [done|].
  by destruct (filter_nil_inv _ _ (eq_sym HBC) u Hu).
Qed.

(** ** Determinism *)





(** ** Errors *)


(** ** Content hasher *)


(** ** Command line *)

Lemma reach_root (fs : FS) (d p : Path) : reach fs d p → root p = root d.
Proof. induction 1 as [names n _ _|q names n _ IH _ _ _]; simpl; done. Qed.

(** The listing keeps the directory argument as the prefix of what it
    yields: the paths are absolute exactly when the argument is. *)
Lemma all_files_keep_root (fs : FS) (fuel : nat) (d : Path) (fles : list Path) :
  _all_files_in_dir fs fuel d = Some (Ok fles) →
  Forall (λ f, is_absolute f = is_absolute d) fles.
Proof.
  intros Hrun. destruct (all_files_sound fs d fuel fles Hrun) as [Hall _].
  eapply Forall_impl; [exact Hall|].
  intros f [Hf _]. by apply (reach_root fs).
Qed.

Lemma string_app_assoc (s t u : string) : (s +:+ t) +:+ u = s +:+ (t +:+ u).
Proof.
  induction s as [|c s IH]; [done|].
  change (String c ((s +:+ t) +:+ u) = String c (s +:+ (t +:+ u))). by rewrite IH.
Qed.

Lemma string_app_nil_r (s : string) : s +:+ "" = s.
Proof.
  induction s as [|c s IH]; [done|].
  change (String c (s +:+ "") = String c s). by rewrite IH.
Qed.

(** When [covered] returns, [main] prints one line for each missing file,
    in the order of the result: the path as the listing yielded it, a
    tab, the hash. *)
Lemma main_report (fs : FS) (fuel : nat) (args_src args_cov stdout : string)
    (missings : list (Path * string)) :
  covered fs fuel (of_string args_src) (of_string args_cov) (sha1_file_hash fs)
    = Some (Ok missings) →
  main fs fuel args_src args_cov stdout = (stdout +:+ report missings, Some (Ok ())).
Proof.
  intros Hcov. unfold main. rewrite Hcov. f_equal. clear Hcov.
  revert stdout. induction missings as [|t rest IH]; intros stdout; simpl.
  - by rewrite string_app_nil_r.
  - rewrite IH. unfold print, report_line. by rewrite !string_app_assoc.
Qed.

(** C5, at a relative directory argument.  With the working directory
    [/home/u] and the arguments [--src s --cov c], the listing of [s]
    yields the relative paths [s/y.txt] and [s/x.txt], and [main] prints
    them as they are, each followed by a tab and the hash: the paths in
    the report are not absolute. *)
Theorem relative_directory_relative_report :
  let fs := fs_of Samples.home in
  let fles := [mkPath false ["s"; "y.txt"]; mkPath false ["s"; "x.txt"]] in
  _all_files_in_dir fs 20 (of_string "s") = Some (Ok fles) ∧
  Forall (λ f, is_absolute f = false) fles ∧
  main fs 20 "s" "c" "" =
    ("s/y.txt" +:+ TAB +:+ "ff3390557335ba88d37755e41514beb03bc499ec" +:+ LF +:+
     "s/x.txt" +:+ TAB +:+ "ff3390557335ba88d37755e41514beb03bc499ec" +:+ LF,
     Some (Ok ())).
Proof.
  split_and!.
  - vm_compute. reflexivity.
  - by repeat constructor.
  - vm_compute. reflexivity.
Qed.

(** * Further properties of the program *)

(** ** Consumers of the generator *)

Lemma foldM_app {A B} (body : A → B → result A) (acc : A) (l1 l2 : list B) :
  foldM body acc (l1 ++ l2) = rbind (foldM body acc l1) (λ a, foldM body a l2).
Proof.
  revert acc. induction l1 as [|x l1 IH]; intros acc; simpl; [done|].
  destruct (body acc x); simpl; [apply IH|done].
Qed.

(** The entries of a successful hashing pair each file, in order, with a
    hash that [hash_fun] returned for it. *)
Lemma foldM_hash_inv (hash_fun : Path → result string) tups fles r :
  foldM (hash_body hash_fun) tups fles = Ok r →
  ∃ tups', r = tups ++ tups' ∧ tups'.*1 = fles ∧
           ∀ t, t ∈ tups' → hash_fun t.1 = Ok t.2.
Proof.
  revert tups. induction fles as [|f fles IH]; intros tups; simpl.
  - intros [= <-]. exists []. rewrite app_nil_r. set_solver.
  - unfold hash_body at 1. destruct (hash_fun f) as [hsh|e] eqn:Hf; simpl; [|done].
    intros (tups' & -> & <- & Hall)%IH.
    exists ((f, hsh) :: tups'). rewrite <-app_assoc. split_and!; [done..|].
    intros t [->|Hin]%elem_of_cons; [done|]. by apply Hall.
Qed.

(** A consumer that came to a normal end was handed a complete listing. *)
Lemma gen_run_ok_listing {A} (fs : FS) (body : A → Path → result A) fuel st acc r :
  gen_run fs body fuel st acc = Some (Ok r) →
  ∃ fles, gen_run fs collect fuel st [] = Some (Ok fles) ∧
          foldM body acc fles = Ok r.
Proof.
  revert st acc. induction fuel as [|fuel IH]; intros st acc; [done|].
  simpl. destruct (loop_body fs st) as [|st'|st'|fle st'|e]; try done.
  - intros [= <-]. by exists [].
  - apply IH.
  - apply IH.
  - destruct (body acc fle) as [acc'|e] eqn:Hb; [|done].
    intros (fles & Hrun & Hfold)%IH. exists (fle :: fles).
    rewrite gen_run_collect_acc, Hrun. simpl. by rewrite Hb.
Qed.

(** A listing that raised makes every consumer raise. *)
Lemma gen_run_err_listing {A} (fs : FS) (body : A → Path → result A) fuel st acc e :
  gen_run fs collect fuel st [] = Some (Err e) →
  ∃ e', gen_run fs body fuel st acc = Some (Err e').
Proof.
  revert st acc. induction fuel as [|fuel IH]; intros st acc; [done|].
  simpl. destruct (loop_body fs st) as [|st'|st'|fle st'|e0]; try done.
  - apply IH.
  - apply IH.
  - rewrite gen_run_collect_acc.
    destruct (gen_run fs collect fuel st' []) as [[fles|e1]|] eqn:Hrun; try done.
    intros [= <-]. destruct (body acc fle) as [acc'|e2]; [by eapply IH|by eexists].
  - intros [= <-]. by eexists.
Qed.

Lemma dir_contents_inv (fs : FS) (fuel : nat) (d : Path)
    (hash_fun : Path → result string) (tups : list (Path * string)) :
  dir_contents fs fuel d hash_fun = Some (Ok tups) →
  _all_files_in_dir fs fuel d = Some (Ok (tups.*1)) ∧
  ∀ t, t ∈ tups → hash_fun t.1 = Ok t.2.
Proof.
  unfold dir_contents, _all_files_in_dir, gen_consume.
  destruct (gen_start fs d) as [st|e]; [|done].
  intros (fles & Hrun & Hfold)%gen_run_ok_listing.
  apply (foldM_hash_inv hash_fun []) in Hfold as (tups' & -> & <- & Hall).
  done.
Qed.

Lemma foldM_hash_pairs (hash_fun : Path → result string)
    (acc tups : list (Path * string)) :
  (∀ t, t ∈ tups → hash_fun t.1 = Ok t.2) →
  foldM (hash_body hash_fun) acc (tups.*1) = Ok (acc ++ tups).
Proof.
  revert acc. induction tups as [|[f h] tups IH]; intros acc Hall; simpl.
  - by rewrite app_nil_r.
  - unfold hash_body at 1.
    assert (hash_fun f = Ok h) as -> by (apply (Hall (f, h)); set_solver).
    simpl. rewrite IH by set_solver. by rewrite <-app_assoc.
Qed.

(** X13. [dir_contents] returns a list of pairs exactly when the
    listing of the directory yields the paths of the pairs, in that
    order, and [hash_fun] returns for each path the hash it is paired
    with: hashing each file as soon as it is yielded gives what hashing
    the finished listing would give. *)
Theorem dir_contents_pairs_listing (fs : FS) (fuel : nat) (d : Path)
    (hash_fun : Path → result string) (tups : list (Path * string)) :
  dir_contents fs fuel d hash_fun = Some (Ok tups) ↔
  _all_files_in_dir fs fuel d = Some (Ok (tups.*1)) ∧
  ∀ t, t ∈ tups → hash_fun t.1 = Ok t.2.
Proof.
  split; [apply dir_contents_inv|].
  intros [Hfiles Hall]. rewrite (dir_contents_fold fs _ _ _ _ Hfiles).
  by rewrite foldM_hash_pairs.
Qed.

(** X4. The exception of [dir_contents] is the exception of the first
    file, in the order of the listing, on which [hash_fun] raises. *)
Theorem dir_contents_first_error (fs : FS) (fuel : nat) (d : Path)
    (hash_fun : Path → result string) (hs : Path → string)
    (before after : list Path) (f : Path) (e : exn) :
  _all_files_in_dir fs fuel d = Some (Ok (before ++ f :: after)) →
  (∀ g, g ∈ before → hash_fun g = Ok (hs g)) →
  hash_fun f = Err e →
  dir_contents fs fuel d hash_fun = Some (Err e).
Proof.
  intros Hfiles Hbefore Hf. rewrite (dir_contents_fold fs _ _ _ _ Hfiles).
  rewrite foldM_app, (foldM_hash_ok hash_fun hs) by done. simpl.
  unfold hash_body at 1. by rewrite Hf.
Qed.

(** ** The comparator as a relation between trees *)

(** X5. A tree covers itself, whatever the hash function. *)
Theorem covered_reflexive (fs : FS) (fuel : nat) (A : Path)
    (hash_fun : Path → result string) (tups : list (Path * string)) :
  dir_contents fs fuel A hash_fun = Some (Ok tups) →
  covered fs fuel A A hash_fun = Some (Ok []).
Proof.
  intros HA. rewrite covered_unfold, HA. simpl. unfold mret, run_ret.
  do 2 f_equal. apply filter_none. intros t Ht Hnot. apply Hnot.
  by apply list_elem_of_fmap_2.
Qed.

(** X9. An empty source tree has nothing missing: when the listing of
    the source yields no file and the coverage tree can be listed and
    hashed, the result is empty. *)
Theorem covered_empty_source (fs : FS) (fuel : nat) (A B : Path)
    (hash_fun : Path → result string) (cov : list (Path * string)) :
  _all_files_in_dir fs fuel A = Some (Ok []) →
  dir_contents fs fuel B hash_fun = Some (Ok cov) →
  covered fs fuel A B hash_fun = Some (Ok []).
Proof.
  intros HA HB. rewrite covered_unfold.
  rewrite (dir_contents_fold fs _ _ _ _ HA), HB. done.
Qed.

(** X6. The coverage tree enters the result through the set of its
    hashes only, and a richer coverage tree leaves fewer files missing:
    when every hash of [B] is a hash of [B'], what is missing in [B'] is
    what is missing in [B] without the entries whose hash [B'] has, in
    the same order. *)
Theorem covered_more_coverage (fs : FS) (fuel : nat) (A B B' : Path)
    (hash_fun : Path → result string)
    (missings cov cov' : list (Path * string)) :
  covered fs fuel A B hash_fun = Some (Ok missings) →
  dir_contents fs fuel B hash_fun = Some (Ok cov) →
  dir_contents fs fuel B' hash_fun = Some (Ok cov') →
  (∀ h, h ∈ cov.*2 → h ∈ cov'.*2) →
  ∃ missings',
    covered fs fuel A B' hash_fun = Some (Ok missings') ∧
    missings' = filter (λ t, t.2 ∉ cov'.*2) missings ∧
    missings' `sublist_of` missings.
Proof.
  intros HAB HB HB' Hsub.
  apply covered_inv in HAB as (src & cov0 & HA & HB0 & ->).
  rewrite HB in HB0. injection HB0 as <-.
  eexists. split; [|split; [reflexivity|apply sublist_filter]].
  rewrite covered_unfold, HA, HB'. simpl. unfold mret, run_ret. do 2 f_equal.
  rewrite list_filter_filter. apply list_filter_iff. naive_solver.
Qed.

(** X7. No file is reported twice: the paths of the result have
    different canonical names. *)
Theorem covered_reports_no_file_twice (fs : FS) (fuel : nat) (A B : Path)
    (hash_fun : Path → result string) (missings : list (Path * string)) :
  covered fs fuel A B hash_fun = Some (Ok missings) →
  NoDup (canon fs <$> missings.*1).
Proof.
  intros (src & cov & HA & _ & ->)%covered_inv.
  apply dir_contents_inv in HA as [HA _].
  destruct (all_files_sound fs A fuel _ HA) as [_ Hnd].
  eapply sublist_NoDup; [exact Hnd|].
  do 2 apply fmap_sublist. apply sublist_filter.
Qed.

(** ** The enumerator *)

Lemma reach_parts (fs : FS) (d p : Path) :
  reach fs d p →
  ∃ names, names ≠ [] ∧ parts p = parts d ++ names ∧ root p = root d.
Proof.
  induction 1 as [names n _ _|q names n _ (below & Hne & Hparts & Hroot) _ _ _].
  - by exists [n].
  - exists (below ++ [n]). simpl. rewrite Hparts, <-app_assoc.
    split_and!; [|done..]. by destruct below.
Qed.

(** X12. Every path of the listing is the directory argument, as it was
    given, followed by one or more components, and is not a directory:
    the listing yields neither the directory itself, nor a directory,
    nor a path outside the argument. *)
Theorem all_files_under_directory (fs : FS) (fuel : nat) (d : Path)
    (fles : list Path) :
  _all_files_in_dir fs fuel d = Some (Ok fles) →
  Forall (λ f, is_dir fs f = false ∧ root f = root d ∧
               ∃ names, names ≠ [] ∧ parts f = parts d ++ names) fles.
Proof.
  intros Hrun. destruct (all_files_sound fs d fuel fles Hrun) as [Hall _].
  eapply Forall_impl; [exact Hall|].
  intros f [(names & ? & ? & ?)%reach_parts ?]. eauto.
Qed.

Lemma gen_run_flat (fs : FS) (fuel : nat) (V : gset string) (L : list Path) :
  Forall (λ p, is_dir fs p = false) L →
  NoDup (canon fs <$> L) →
  (∀ p, p ∈ L → canon fs p ∉ V) →
  length L < fuel →
  gen_run fs collect fuel {| visited := V; left := L |} [] = Some (Ok (reverse L)).
Proof.
  revert fuel V. induction L as [|p L IH] using rev_ind; intros fuel V Hdir Hnd HV Hfuel.
  - destruct fuel; [simpl in Hfuel; lia|]. done.
  - destruct fuel as [|fuel]; [lia|].
    rewrite length_app in Hfuel. simpl in Hfuel.
    apply Forall_app in Hdir as [HdirL Hdirp]. rewrite Forall_singleton in Hdirp.
    rewrite fmap_app in Hnd. apply NoDup_app in Hnd as (HndL & Hdisj & _).
    simpl. unfold loop_body. simpl. rewrite list_pop_snoc. fold (canon fs p).
    rewrite decide_False by (apply HV; set_solver). rewrite Hdirp.
    rewrite gen_run_collect_acc, IH; [by rewrite reverse_snoc|done..| |lia].
    intros q Hq. apply not_elem_of_union. split; [apply HV; set_solver|].
    intros Heq%elem_of_singleton.
    apply (Hdisj (canon fs q)); [by apply list_elem_of_fmap_2|rewrite Heq; set_solver].
Qed.

(** X8. A directory that holds files only is listed from its last entry
    to its first: the listing is the directory order reversed. *)
Theorem flat_directory_reversed (fs : FS) (fuel : nat) (d : Path)
    (names : list string) :
  listdir fs d = Ok names →
  (∀ n, n ∈ names → is_dir fs (d // n) = false) →
  NoDup (canon fs <$> (joinpath d <$> names)) →
  length names < fuel →
  _all_files_in_dir fs fuel d = Some (Ok (reverse (joinpath d <$> names))).
Proof.
  intros Hls Hdir Hnd Hfuel.
  unfold _all_files_in_dir, gen_consume, gen_start, iterdir. rewrite Hls. simpl.
  apply gen_run_flat; [|done|set_solver|by rewrite length_fmap].
  apply Forall_fmap, Forall_forall. intros n Hn. by apply Hdir.
Qed.

(** ** The command line *)

(** X1. When [covered] returns, [main] adds to standard output one line
    for each missing file, in the order of the result, made of the path
    as the listing yielded it, a tab and the hash, and ends normally;
    with nothing missing it prints nothing. *)
Theorem main_prints_report (fs : FS) (fuel : nat)
    (args_src args_cov stdout : string) (missings : list (Path * string)) :
  covered fs fuel (of_string args_src) (of_string args_cov) (sha1_file_hash fs)
    = Some (Ok missings) →
  main fs fuel args_src args_cov stdout = (stdout +:+ report missings, Some (Ok ())) ∧
  (missings = [] → main fs fuel args_src args_cov stdout = (stdout, Some (Ok ()))).
Proof.
  intros Hcov. rewrite (main_report _ _ _ _ _ _ Hcov). split; [done|].
  intros ->. simpl. by rewrite string_app_nil_r.
Qed.

(** X3. A directory argument that cannot be listed ends [main] with the
    exception of the listing and without output: at once for the source
    argument, and after the source tree was listed and hashed for the
    coverage argument. *)
Theorem main_directory_error (fs : FS) (fuel : nat)
    (args_src args_cov stdout : string) (e : exn) :
  listdir fs (of_string args_src) = Err e ∨
  ((∃ tups, dir_contents fs fuel (of_string args_src) (sha1_file_hash fs)
              = Some (Ok tups)) ∧
   listdir fs (of_string args_cov) = Err e) →
  main fs fuel args_src args_cov stdout = (stdout, Some (Err e)).
Proof.
  intros Herr.
  assert (covered fs fuel (of_string args_src) (of_string args_cov)
            (sha1_file_hash fs) = Some (Err e)) as Hrun.
  { rewrite covered_unfold. destruct Herr as [Hsrc|[[tups Hsrc] Hcov]].
    - assert (dir_contents fs fuel (of_string args_src) (sha1_file_hash fs)
                = Some (Err e)) as ->; [|done].
      unfold dir_contents, gen_consume, gen_start, iterdir. by rewrite Hsrc.
    - rewrite Hsrc. simpl.
      unfold dir_contents, gen_consume, gen_start, iterdir. by rewrite Hcov. }
  unfold main. by rewrite Hrun.
Qed.

(** ** On finite file systems *)

Lemma disk_covered_terminates (dk : disk) (fuel : nat) (src covered_by : Path)
    (hash_fun : Path → result string) :
  traversal_bound dk src ≤ fuel → traversal_bound dk covered_by ≤ fuel →
  is_Some (covered (fs_of dk) fuel src covered_by hash_fun).
Proof.
  intros Hsrc Hcov. rewrite covered_unfold.
  destruct (disk_terminates dk (hash_body hash_fun) src fuel [] Hsrc) as [rs Hrs].
  destruct (disk_terminates dk (hash_body hash_fun) covered_by fuel [] Hcov) as [rc Hrc].
  unfold dir_contents. fold (hash_body hash_fun). rewrite Hrs, Hrc.
  destruct rs, rc; simpl; eauto.
Qed.

(** X11. On every finite file system [main] comes to an end within the
    two traversal bounds, in one of two ways: normally, having added the
    report to standard output, or with an exception, having printed
    nothing. *)
Theorem main_terminates_on_disk (dk : disk) (fuel : nat)
    (args_src args_cov stdout : string) :
  traversal_bound dk (of_string args_src) ≤ fuel →
  traversal_bound dk (of_string args_cov) ≤ fuel →
  (∃ missings,
     main (fs_of dk) fuel args_src args_cov stdout
       = (stdout +:+ report missings, Some (Ok ()))) ∨
  (∃ e, main (fs_of dk) fuel args_src args_cov stdout = (stdout, Some (Err e))).
Proof.
  intros Hsrc Hcov.
  destruct (disk_covered_terminates dk fuel _ _ (sha1_file_hash (fs_of dk)) Hsrc Hcov)
    as [[missings|e] Hrun].
  - left. exists missings. by apply main_report.
  - right. exists e. unfold main. by rewrite Hrun.
Qed.

Lemma sha1_ok_open (fs : FS) (f : Path) (h : string) :
  sha1_file_hash fs f = Ok h →
  ∃ data, open_rb fs f = Ok data ∧ h = Hashlib.hexdigest data.
Proof.
  rewrite sha1_file_hash_unfold. destruct (open_rb fs f) as [data|e]; [|done].
  intros [= <-]. by exists data.
Qed.

(** On a disk the content of a file belongs to its canonical name. *)
Lemma disk_open_canon (dk : disk) (f g : Path) (data : list byte) :
  canon (fs_of dk) f = canon (fs_of dk) g →
  open_rb (fs_of dk) f = Ok data → open_rb (fs_of dk) g = Ok data.
Proof.
  unfold canon. simpl. unfold disk_open_rb, node_at. intros ->.
  by destruct (nodes dk !! str (disk_resolve dk g)) as [[es|data'|[|]]|].
Qed.

(** X10. On a finite file system, an entry of either tree that is not a
    directory and cannot be opened (a file without read permission, a
    link whose target is gone) ends [main] with an exception and without
    output, wherever in the tree it is. *)
Theorem main_aborts_on_unreadable_entry (dk : disk) (fuel : nat)
    (args_src args_cov stdout : string) (p : Path) :
  traversal_bound dk (of_string args_src) ≤ fuel →
  traversal_bound dk (of_string args_cov) ≤ fuel →
  reach (fs_of dk) (of_string args_src) p ∨
    reach (fs_of dk) (of_string args_cov) p →
  is_dir (fs_of dk) p = false →
  (∀ data, open_rb (fs_of dk) p ≠ Ok data) →
  ∃ e, main (fs_of dk) fuel args_src args_cov stdout = (stdout, Some (Err e)).
Proof.
  intros Hsrc Hcov Hreach Hdir Hopen.
  destruct (disk_covered_terminates dk fuel _ _ (sha1_file_hash (fs_of dk)) Hsrc Hcov)
    as [[missings|e] Hrun]; [exfalso|exists e; unfold main; by rewrite Hrun].
  apply covered_inv in Hrun as (src & cov & HA & HB & _).
  apply dir_contents_inv in HA as [HA HhA].
  apply dir_contents_inv in HB as [HB HhB].
  assert (∃ tups d, _all_files_in_dir (fs_of dk) fuel d = Some (Ok (tups.*1)) ∧
            (∀ t, t ∈ tups → sha1_file_hash (fs_of dk) t.1 = Ok t.2) ∧
            reach (fs_of dk) d p) as (tups & d & Hls & Hh & Hr)
    by (destruct Hreach; eauto 10).
  destruct (all_files_complete _ _ _ _ p (disk_coherent dk) Hls Hr Hdir)
    as (f & Hf & Hcf).
  apply list_elem_of_fmap in Hf as (t & -> & Ht).
  destruct (sha1_ok_open _ _ _ (Hh t Ht)) as (data & Hdata & _).
  by apply (Hopen data), (disk_open_canon dk t.1 p).
Qed.

(** X14. On a finite file system a tree is covered by every tree that
    holds its files, under whatever paths: when [covered] returns and
    each file met below [A] is, by canonical name, also met below [B]
    (as when [A] is a directory of [B], or the target of a link in
    [B]), nothing is missing. *)
Theorem covered_by_containing_tree (dk : disk) (fuel : nat) (A B : Path)
    (missings : list (Path * string)) :
  covered (fs_of dk) fuel A B (sha1_file_hash (fs_of dk)) = Some (Ok missings) →
  (∀ p, reach (fs_of dk) A p → is_dir (fs_of dk) p = false →
        ∃ q, reach (fs_of dk) B q ∧ canon (fs_of dk) q = canon (fs_of dk) p) →
  missings = [].
Proof.
  intros (src & cov & HA & HB & ->)%covered_inv Hin.
  apply dir_contents_inv in HA as [HA HhA].
  apply dir_contents_inv in HB as [HB HhB].
  apply filter_none. intros t Ht Hnot. apply Hnot.
  destruct (all_files_sound _ _ _ _ HA) as [Hsound _].
  rewrite Forall_forall in Hsound.
  destruct (Hsound t.1) as [Hr Hd]; [by apply list_elem_of_fmap_2|].
  destruct (Hin _ Hr Hd) as (q & Hq & Hcq).
  destruct (disk_coherent dk q t.1 Hcq) as [Hdq _]. rewrite Hd in Hdq.
  destruct (all_files_complete _ _ _ _ q (disk_coherent dk) HB Hq Hdq)
    as (g & Hg & Hcg).
  apply list_elem_of_fmap in Hg as (u & -> & Hu).
  destruct (sha1_ok_open _ _ _ (HhA t Ht)) as (data & Hdata & ->).
  destruct (sha1_ok_open _ _ _ (HhB u Hu)) as (data' & Hdata' & Hu2).
  apply (disk_open_canon dk t.1 u.1) in Hdata; [|congruence].
  rewrite Hdata in Hdata'. injection Hdata' as <-.
  rewrite <-Hu2. by apply list_elem_of_fmap_2.
Qed.

(** The entries met below a directory of [B] are met below [B]. *)
Lemma reach_subdirectory (fs : FS) (B : Path) (names : list string) (n : string)
    (p : Path) :
  listdir fs B = Ok names → n ∈ names → is_dir fs (B // n) = true →
  reach fs (B // n) p → reach fs B p.
Proof.
  intros Hls Hn Hdir. induction 1 as [names' m Hls' Hm|q names' m _ IH Hdq Hls' Hm].
  - apply (reach_sub fs B (B // n) names'); [|done..]. by apply (reach_top fs B names).
  - by apply (reach_sub fs B q names').
Qed.

(** X2. Full coverage is inclusion of hashes: for two trees that can be
    listed and hashed, nothing is missing exactly when every hash of the
    source tree is a hash of the coverage tree. *)
Theorem covered_empty_iff_hashes_included (fs : FS) (fuel : nat) (A B : Path)
    (hash_fun : Path → result string) (src cov : list (Path * string)) :
  dir_contents fs fuel A hash_fun = Some (Ok src) →
  dir_contents fs fuel B hash_fun = Some (Ok cov) →
  covered fs fuel A B hash_fun = Some (Ok []) ↔ ∀ h, h ∈ src.*2 → h ∈ cov.*2.
Proof.
  intros HA HB. rewrite covered_unfold, HA, HB. simpl. unfold mret, run_ret. split.
  - intros [= Hnil] h (t & -> & Ht)%list_elem_of_fmap.
    destruct (decide (t.2 ∈ cov.*2)) as [|Hn]; [done|].
    by destruct (filter_nil_inv _ _ Hnil t Ht).
  - intros Hincl. do 2 f_equal. apply filter_none. intros t Ht Hnot.
    apply Hnot, Hincl. by apply list_elem_of_fmap_2.
Qed.

(** * Test vectors and sample runs *)

Section Runs.
Import Samples.

(** The digests of FIPS 180-4 and RFC 3174. *)
Example sha1_empty :
  Hashlib.hexdigest (bytes "") = "da39a3ee5e6b4b0d3255bfef95601890afd80709".
Proof. vm_compute. reflexivity. Qed.

Example sha1_abc :
  Hashlib.hexdigest (bytes "abc") = "a9993e364706816aba3e25717850c26c9cd0d89d".
Proof. vm_compute. reflexivity. Qed.

Example sha1_two_blocks :
  Hashlib.hexdigest
    (bytes "abcdbcdecdefdefgefghfghighijhijkijkljklmklmnlmnomnopnopq")
  = "84983e441c3bd26ebaae4aa1f95129e5e54670f1".
Proof. vm_compute. reflexivity. Qed.

(** A buffer of two bytes reads [abc] in two chunks. *)
Example read_loop_chunks :
  read_loop 2 (bytes "abc") Hashlib.sha1_new = bytes "abc".
Proof. vm_compute. reflexivity. Qed.

(** [A] holds [a.txt] with [hello] and [sub/b.txt] with [world]; [B]
    holds [c.txt] with [hello]: only [sub/b.txt] is missing. *)
Example covered_scenario :
  covered (fs_of two_trees) 20 (of_string "/A") (of_string "/B")
          (sha1_file_hash (fs_of two_trees))
  = Some (Ok [(of_string "/A/sub/b.txt", Hashlib.hexdigest (bytes "world"))]).
Proof. vm_compute. reflexivity. Qed.

(** The docstring of [_all_files_in_dir]. *)
Example docstring_first :
  ∃ fles, _all_files_in_dir (fs_of doctest1) 20 (of_string "/tmp/test__1234")
            = Some (Ok fles) ∧
          name <$> fles = ["test.txt"].
Proof. eexists. split; vm_compute; reflexivity. Qed.

Example docstring_second :
  ∃ fles, _all_files_in_dir (fs_of doctest2) 20 (of_string "/tmp/test__1234")
            = Some (Ok fles) ∧
          name <$> fles ≡ₚ ["test.txt"; "test2.txt"].
Proof.
  eexists. split; [vm_compute; reflexivity|]. simpl. apply Permutation_swap.
Qed.

(** The last entry of a directory is visited first. *)
Example listing_order :
  _all_files_in_dir (fs_of two_trees) 20 (of_string "/A")
  = Some (Ok [of_string "/A/sub/b.txt"; of_string "/A/a.txt"]).
Proof. vm_compute. reflexivity. Qed.

(** With links back to [/d], [a.txt] is yielded once, under the path on
    which the traversal first met it. *)
Example listing_looped :
  _all_files_in_dir (fs_of looped) 9 (of_string "/d")
  = Some (Ok [of_string "/d/sub/up/a.txt"; of_string "/d/sub/b.txt"]).
Proof. vm_compute. reflexivity. Qed.

(** [/d] is marked once, when the link [up] is followed, though its
    entries were already in the work list at the start. *)
Example marks_looped :
  all_marks (fs_of looped) 9 (of_string "/d")
  = ["/d/sub"; "/d"; "/d/a.txt"; "/d/sub/b.txt"].
Proof. vm_compute. reflexivity. Qed.

Example listing_looped_bound : traversal_bound looped (of_string "/d") = 9.
Proof. vm_compute. reflexivity. Qed.

Example main_absolute :
  main (fs_of home) 20 "/home/u/s" "/home/u/c" "" =
    ("/home/u/s/y.txt" +:+ TAB +:+ "ff3390557335ba88d37755e41514beb03bc499ec" +:+ LF +:+
     "/home/u/s/x.txt" +:+ TAB +:+ "ff3390557335ba88d37755e41514beb03bc499ec" +:+ LF,
     Some (Ok ())).
Proof. vm_compute. reflexivity. Qed.

Example main_unreadable :
  main (fs_of locked) 20 "/A" "/B" "" = ("", Some (Err (PermissionError "/A/secret"))).
Proof. vm_compute. reflexivity. Qed.

End Runs.

(** * Instances of the theorems *)

Ltac members H :=
  simpl in H;
  repeat (apply elem_of_cons in H as [->|H]);
  [..|by apply elem_of_nil in H].


Lemma covered_filters_source_witness :
  let fs := fs_of Samples.two_trees in
  let hs := hash_value (sha1_file_hash fs) in
  let fles_src := [of_string "/A/sub/b.txt"; of_string "/A/a.txt"] in
  let fles_cov := [of_string "/B/c.txt"] in
  ∃ missings,
    covered fs 20 (of_string "/A") (of_string "/B") (sha1_file_hash fs)
      = Some (Ok missings) ∧
    missings = filter (λ t, t.2 ∉ hs <$> fles_cov) ((λ f, (f, hs f)) <$> fles_src) ∧
    ∀ f g, f ∈ fles_src → g ∈ fles_cov → hs f = hs g → f ∉ missings.*1.
Proof.
  intros fs hs fles_src fles_cov.
  apply (covered_filters_source fs 20 _ _ _ hs fles_src fles_cov).
  - vm_compute. reflexivity.
  - vm_compute. reflexivity.
  - intros f Hf. members Hf; vm_compute; reflexivity.
Defined.

Lemma covered_by_copy_is_empty_witness :
  let fs := fs_of Samples.two_trees in
  covered fs 20 (of_string "/A") (of_string "/A2") (sha1_file_hash fs) = Some (Ok []).
Proof.
  intros fs.
  apply (covered_by_copy_is_empty fs 20 _ _ _ Hashlib.hexdigest
           [of_string "/A/sub/b.txt"; of_string "/A/a.txt"]
           [of_string "/A2/sub/b.txt"; of_string "/A2/a.txt"]).
  - vm_compute. reflexivity.
  - vm_compute. reflexivity.
  - intros f. apply sha1_file_hash_unfold.
  - intros g Hg. members Hg; eexists; vm_compute; reflexivity.
  - intros f Hf. members Hf.
    + exists (of_string "/A2/sub/b.txt"), (Samples.bytes "world").
      split_and!; [set_solver|vm_compute; reflexivity..].
    + exists (of_string "/A2/a.txt"), (Samples.bytes "hello").
      split_and!; [set_solver|vm_compute; reflexivity..].
Defined.

Lemma covered_by_empty_reports_all_witness :
  let fs := fs_of Samples.two_trees in
  let hs := hash_value (sha1_file_hash fs) in
  let fles_A := [of_string "/A/sub/b.txt"; of_string "/A/a.txt"] in
  ∃ missings,
    covered fs 20 (of_string "/A") (of_string "/E") (sha1_file_hash fs)
      = Some (Ok missings) ∧
    missings = (λ f, (f, hs f)) <$> fles_A ∧
    length missings = 2.
Proof.
  intros fs hs fles_A.
  apply (covered_by_empty_reports_all fs 20 _ _ _ hs fles_A 2).
  - vm_compute. reflexivity.
  - vm_compute. reflexivity.
  - reflexivity.
  - intros f Hf. members Hf; vm_compute; reflexivity.
Defined.

Lemma covered_reports_each_duplicate_witness :
  let fs := fs_of Samples.home in
  let hs := hash_value (sha1_file_hash fs) in
  let fles_src := [of_string "s/y.txt"; of_string "s/x.txt"] in
  let h := Hashlib.hexdigest (Samples.bytes "same") in
  ∃ missings,
    covered fs 20 (of_string "s") (of_string "c") (sha1_file_hash fs)
      = Some (Ok missings) ∧
    length (filter (λ t, t.2 = h) missings) = length (filter (λ f, hs f = h) fles_src) ∧
    ∀ f, f ∈ fles_src → hs f = h → (f, h) ∈ missings.
Proof.
  intros fs hs fles_src h.
  apply (covered_reports_each_duplicate fs 20 _ _ _ hs fles_src [] h).
  - vm_compute. reflexivity.
  - vm_compute. reflexivity.
  - intros f Hf. members Hf; vm_compute; reflexivity.
  - simpl. apply not_elem_of_nil.
Defined.

Lemma covered_transitive_witness :
  let fs := fs_of Samples.two_trees in
  covered fs 30 (of_string "/B") (of_string "/A2") (sha1_file_hash fs) = Some (Ok []).
Proof.
  intros fs.
  apply (covered_transitive fs _ (of_string "/B") (of_string "/A") (of_string "/A2") 20 25 30).
  - lia.
  - lia.
  - vm_compute. reflexivity.
  - vm_compute. reflexivity.
Defined.




(** ** Instances of the further properties *)

Lemma dir_contents_first_error_witness :
  let fs := fs_of Samples.locked in
  dir_contents fs 20 (of_string "/A") (sha1_file_hash fs)
    = Some (Err (PermissionError "/A/secret")).
Proof.
  intros fs.
  apply (dir_contents_first_error fs 20 (of_string "/A") (sha1_file_hash fs)
           (hash_value (sha1_file_hash fs))
           [of_string "/A/open.txt"] [] (of_string "/A/secret")).
  - vm_compute. reflexivity.
  - intros g Hg. members Hg. vm_compute. reflexivity.
  - vm_compute. reflexivity.
Defined.

Lemma covered_reflexive_witness :
  let fs := fs_of Samples.two_trees in
  covered fs 20 (of_string "/A") (of_string "/A") (sha1_file_hash fs) = Some (Ok []).
Proof.
  intros fs.
  apply (covered_reflexive fs 20 (of_string "/A") (sha1_file_hash fs)
           [(of_string "/A/sub/b.txt", "7c211433f02071597741e6ff5a8ea34789abbf43");
            (of_string "/A/a.txt", "aaf4c61ddcc5e8a2dabede0f3b482cd9aea9434d")]).
  vm_compute. reflexivity.
Defined.

Lemma covered_empty_source_witness :
  let fs := fs_of Samples.two_trees in
  covered fs 20 (of_string "/E") (of_string "/A") (sha1_file_hash fs) = Some (Ok []).
Proof.
  intros fs.
  apply (covered_empty_source fs 20 (of_string "/E") (of_string "/A") (sha1_file_hash fs)
           [(of_string "/A/sub/b.txt", "7c211433f02071597741e6ff5a8ea34789abbf43");
            (of_string "/A/a.txt", "aaf4c61ddcc5e8a2dabede0f3b482cd9aea9434d")]).
  - vm_compute. reflexivity.
  - vm_compute. reflexivity.
Defined.

Lemma covered_more_coverage_witness :
  let fs := fs_of Samples.two_trees in
  let missings := [(of_string "/A/sub/b.txt", "7c211433f02071597741e6ff5a8ea34789abbf43")] in
  let cov' := [(of_string "/A2/sub/b.txt", "7c211433f02071597741e6ff5a8ea34789abbf43");
               (of_string "/A2/a.txt", "aaf4c61ddcc5e8a2dabede0f3b482cd9aea9434d")] in
  ∃ missings',
    covered fs 20 (of_string "/A") (of_string "/A2") (sha1_file_hash fs)
      = Some (Ok missings') ∧
    missings' = filter (λ t, t.2 ∉ cov'.*2) missings ∧
    missings' `sublist_of` missings.
Proof.
  intros fs missings cov'.
  apply (covered_more_coverage fs 20 (of_string "/A") (of_string "/B") (of_string "/A2")
           (sha1_file_hash fs) missings
           [(of_string "/B/c.txt", "aaf4c61ddcc5e8a2dabede0f3b482cd9aea9434d")] cov').
  - vm_compute. reflexivity.
  - vm_compute. reflexivity.
  - vm_compute. reflexivity.
  - intros h Hh. members Hh. set_solver.
Defined.

Lemma covered_reports_no_file_twice_witness :
  let fs := fs_of Samples.home in
  NoDup (canon fs <$> [of_string "s/y.txt"; of_string "s/x.txt"]).
Proof.
  intros fs.
  apply (covered_reports_no_file_twice fs 20 (of_string "s") (of_string "c")
           (sha1_file_hash fs)
           [(of_string "s/y.txt", "ff3390557335ba88d37755e41514beb03bc499ec");
            (of_string "s/x.txt", "ff3390557335ba88d37755e41514beb03bc499ec")]).
  vm_compute. reflexivity.
Defined.

Lemma covered_empty_iff_hashes_included_witness :
  let fs := fs_of Samples.two_trees in
  covered fs 20 (of_string "/B") (of_string "/A") (sha1_file_hash fs) = Some (Ok []) ↔
  ∀ h, h ∈ ["aaf4c61ddcc5e8a2dabede0f3b482cd9aea9434d"] →
       h ∈ ["7c211433f02071597741e6ff5a8ea34789abbf43";
            "aaf4c61ddcc5e8a2dabede0f3b482cd9aea9434d"].
Proof.
  intros fs.
  apply (covered_empty_iff_hashes_included fs 20 (of_string "/B") (of_string "/A")
           (sha1_file_hash fs)
           [(of_string "/B/c.txt", "aaf4c61ddcc5e8a2dabede0f3b482cd9aea9434d")]
           [(of_string "/A/sub/b.txt", "7c211433f02071597741e6ff5a8ea34789abbf43");
            (of_string "/A/a.txt", "aaf4c61ddcc5e8a2dabede0f3b482cd9aea9434d")]).
  - vm_compute. reflexivity.
  - vm_compute. reflexivity.
Defined.

Lemma all_files_under_directory_witness :
  let fs := fs_of Samples.home in
  Forall (λ f, is_dir fs f = false ∧ root f = root (of_string "s") ∧
               ∃ names, names ≠ [] ∧ parts f = parts (of_string "s") ++ names)
         [of_string "s/y.txt"; of_string "s/x.txt"].
Proof.
  intros fs. apply (all_files_under_directory fs 20).
  vm_compute. reflexivity.
Defined.

Lemma flat_directory_reversed_witness :
  let fs := fs_of Samples.home in
  _all_files_in_dir fs 3 (of_string "s")
    = Some (Ok (reverse (joinpath (of_string "s") <$> ["x.txt"; "y.txt"]))).
Proof.
  intros fs. apply (flat_directory_reversed fs 3 (of_string "s") ["x.txt"; "y.txt"]).
  - vm_compute. reflexivity.
  - intros n Hn. members Hn; vm_compute; reflexivity.
  - vm_compute. apply NoDup_cons. split; [set_solver|]. apply NoDup_singleton.
  - simpl. lia.
Defined.

Lemma main_prints_report_witness :
  let fs := fs_of Samples.two_trees in
  let missings := [(of_string "/A/sub/b.txt", "7c211433f02071597741e6ff5a8ea34789abbf43")] in
  main fs 20 "/A" "/B" "" = ("" +:+ report missings, Some (Ok ())) ∧
  (missings = [] → main fs 20 "/A" "/B" "" = ("", Some (Ok ()))).
Proof.
  intros fs missings. apply (main_prints_report fs 20 "/A" "/B" "" missings).
  vm_compute. reflexivity.
Defined.

Lemma main_directory_error_witness :
  main (fs_of Samples.two_trees) 20 "/nope" "/B" ""
    = ("", Some (Err (FileNotFoundError "/nope"))).
Proof.
  apply (main_directory_error (fs_of Samples.two_trees) 20 "/nope" "/B" "").
  left. vm_compute. reflexivity.
Defined.

Lemma main_terminates_on_disk_witness :
  let fs := fs_of Samples.looped in
  (∃ missings, main fs 20 "/d" "/d/sub" "" = ("" +:+ report missings, Some (Ok ()))) ∨
  (∃ e, main fs 20 "/d" "/d/sub" "" = ("", Some (Err e))).
Proof.
  intros fs. apply (main_terminates_on_disk Samples.looped 20 "/d" "/d/sub" "").
  - vm_compute. lia.
  - vm_compute. lia.
Defined.

Lemma main_aborts_on_unreadable_entry_witness :
  ∃ e, main (fs_of Samples.locked) 20 "/A" "/B" "" = ("", Some (Err e)).
Proof.
  apply (main_aborts_on_unreadable_entry Samples.locked 20 "/A" "/B" ""
           (of_string "/A" // "secret")).
  - vm_compute. lia.
  - vm_compute. lia.
  - left. apply (reach_top _ _ ["secret"; "open.txt"]);
      [vm_compute; reflexivity|apply list_elem_of_here].
  - vm_compute. reflexivity.
  - intros data. vm_compute. discriminate.
Defined.

Lemma covered_by_containing_tree_witness :
  let fs := fs_of Samples.two_trees in
  ∃ missings,
    covered fs 20 (of_string "/A" // "sub") (of_string "/A") (sha1_file_hash fs)
      = Some (Ok missings) ∧
    missings = [].
Proof.
  intros fs.
  assert (∃ missings,
            covered fs 20 (of_string "/A" // "sub") (of_string "/A") (sha1_file_hash fs)
              = Some (Ok missings)) as [missings Hrun]
    by (eexists; vm_compute; reflexivity).
  exists missings. split; [exact Hrun|].
  apply (covered_by_containing_tree Samples.two_trees 20 _ _ missings Hrun).
  intros p Hp _. exists p. split; [|reflexivity].
  apply (reach_subdirectory fs (of_string "/A") ["a.txt"; "sub"] "sub").
  - vm_compute. reflexivity.
  - apply list_elem_of_further, list_elem_of_here.
  - vm_compute. reflexivity.
  - exact Hp.
Defined.
